(** * bot.mjs: the WhatsApp relay's synchronisation core

    A shallow embedding of [src/bot.mjs]: the sent-file cache
    ([loadSentCache], [saveSentCache]), the two polling cycles
    ([pollBucketAndSend], [pollOutboxAndSend]), the control flow of
    [startWhatsApp] with its [connection.update] handler, the
    [messages.upsert] handler and the configuration read at start-up.

    JavaScript values are modelled as the code uses them: optional fields
    as [option], strings as [string], the [Set] of sent names as an
    insertion-ordered list, exceptions as completions, and the calls that
    leave the process (storage, database, transport, file system, clock)
    as oracles indexed by the number of external calls made so far. *)

From Stdlib Require Import List String Ascii Bool Arith ZArith Lia.
Import ListNotations.
Open Scope string_scope.
Open Scope list_scope.
Set Warnings "-register-all,-notation-for-abbreviation".

(** ** JavaScript helpers *)

Module JS.

(** A completion: the value a call returns, or the exception it throws. *)
Inductive Completion (A : Type) : Type :=
| Normal (a : A)
| Throw (e : string).
Arguments Normal {A} a.
Arguments Throw {A} e.

Definition cbind {A B} (c : Completion A) (k : A -> Completion B) : Completion B :=
  match c with
  | Normal a => k a
  | Throw e => Throw e
  end.

Definition ctry {A} (c : Completion A) (handler : string -> A) : A :=
  match c with
  | Normal a => a
  | Throw e => handler e
  end.

(** Truthiness of an optional string: [undefined], [null] and [''] are falsy. *)
Definition truthy (v : option string) : bool :=
  match v with
  | Some s => negb (s =? "")
  | None => false
  end.

(** [v || d] on an optional string. *)
Definition or_else (v : option string) (d : string) : string :=
  match v with
  | Some s => if s =? "" then d else s
  | None => d
  end.

(** [v || null]. *)
Definition or_null (v : option string) : option string :=
  if truthy v then v else None.

(** [a || b || 0] on optional numbers: [undefined] and [0] are falsy. *)
Definition num_or (a : option Z) (b : Z) : Z :=
  match a with
  | Some n => if (n =? 0)%Z then b else n
  | None => b
  end.

Definition lower_ascii (c : ascii) : ascii :=
  let n := nat_of_ascii c in
  if ((65 <=? n) && (n <=? 90))%nat then ascii_of_nat (n + 32) else c.

(** [String.prototype.toLowerCase] on the ASCII letters; other characters
    are left as they are. *)
Fixpoint toLowerCase (s : string) : string :=
  match s with
  | EmptyString => EmptyString
  | String c r => String (lower_ascii c) (toLowerCase r)
  end.

(** [String.prototype.endsWith]: compare the last [length t] characters. *)
Definition endsWith (s t : string) : bool :=
  let n := String.length s in
  let m := String.length t in
  ((m <=? n)%nat && (substring (n - m) m s =? t))%bool.

(** The line feed of a template literal's [\n]. *)
Definition LF : string := String (ascii_of_nat 10) EmptyString.

End JS.
Import JS.

(** ** JSON values and the JavaScript [Set] *)

(** What [JSON.parse] can return.  Numbers are kept as integers: no number
    is ever compared with a file name. *)
Inductive JSON : Type :=
| JNull
| JBool (b : bool)
| JNum (n : Z)
| JStr (s : string)
| JArr (elems : list JSON)
| JObj (fields : list (string * JSON)).

(** SameValueZero, the equality of [Set]: primitives by value, arrays and
    objects by reference (two parsed containers are never the same one). *)
Definition sameValueZero (x y : JSON) : bool :=
  match x, y with
  | JNull, JNull => true
  | JBool a, JBool b => Bool.eqb a b
  | JNum a, JNum b => (a =? b)%Z
  | JStr a, JStr b => (a =? b)%string
  | _, _ => false
  end.

(** A [Set], in insertion order. *)
Definition JSSet := list JSON.

Definition Set_has (s : JSSet) (v : JSON) : bool :=
  existsb (sameValueZero v) s.

Definition Set_add (s : JSSet) (v : JSON) : JSSet :=
  if Set_has s v then s else s ++ [v].

Fixpoint chars (s : string) : list JSON :=
  match s with
  | EmptyString => []
  | String c r => JStr (String c EmptyString) :: chars r
  end.

(** [new Set(v)]: [null] gives the empty set, an array or a string is
    iterated, anything else is not iterable and throws a TypeError. *)
Definition new_Set (v : JSON) : Completion JSSet :=
  match v with
  | JNull => Normal []
  | JArr elems => Normal (fold_left Set_add elems [])
  | JStr s => Normal (fold_left Set_add (chars s) [])
  | JBool _ | JNum _ | JObj _ => Throw "TypeError: object is not iterable"
  end.

(** ** The sent cache on disk *)

(** The state of [sent_cache.json]. *)
Inductive FileState : Type :=
| Absent
| Unreadable
| Contents (text : string).

Definition readFileSync (f : FileState) : Completion string :=
  match f with
  | Absent => Throw "ENOENT: no such file or directory"
  | Unreadable => Throw "EACCES: permission denied"
  | Contents text => Normal text
  end.

Section SentCache.

(** [JSON.parse] is the platform's. *)
Variable JSON_parse : string -> Completion JSON.

Definition loadSentCache (f : FileState) : JSSet :=
  ctry (cbind (readFileSync f) (fun text =>
        cbind (JSON_parse text) (fun v =>
        new_Set v)))
       (fun _ => []).

End SentCache.

(** ** The world the two cycles act on *)

(** A storage listing entry; the code reads only [file.name]. *)
Record FileObject : Type := { name : option string }.

(** The answer of [storage.from(BUCKET_NAME).list(...)]. *)
Record ListResponse : Type := {
  list_data : option (list FileObject);
  list_error : option string
}.

(** The answer of [getPublicUrl]: [pub_url] is [pub?.publicUrl]. *)
Record UrlResponse : Type := {
  pub_url : option string;
  pub_error : option string
}.

(** What [sock.sendMessage] resolves to: [msg_id] is [res?.key?.id]. *)
Record SendReceipt : Type := { msg_id : option string }.

(** A row of [messages_outbox]. *)
Record OutboxRow : Type := {
  row_id : Z;
  row_to : option string;
  row_message : option string;
  sent_at : option string;
  wa_msg_id : option string
}.

(** Which candidate a transport call was made for (a ghost label of the
    trace; the transport sees only the target and the text). *)
Inductive Cause : Type :=
| ForFile (file_name : string)
| ForRow (id : Z).

Inductive LogLine : Type :=
| StorageListError (e : string)
| GetPublicUrlError (e : string)
| SendingToGroup (file_name url : string)
| PollBucketFailed (e : string)
| PollOutboxFailed (e : string)
| CouldNotSaveSentCache (e : string).

(** What a cycle does that is visible from outside, oldest first. An
    update of the outbox is [EvUpdate] when it took effect and
    [EvUpdateLost] when it did not. *)
Inductive Event : Type :=
| EvSend (c : Cause) (jid text : string) (delivered : bool)
| EvUpdate (id : Z) (at_time : string) (receipt : option string)
| EvConsole (l : LogLine)
| EvUpdateLost (id : Z) (at_time : string) (receipt : option string).

Record World : Type := {
  sentFiles : JSSet;
  sent_cache_json : FileState;
  messages_outbox : list OutboxRow;
  tick : nat;
  trace : list Event
}.

(** What becomes of an update of the outbox: it takes effect, or it does
    not (the backend answers with an error, or no row matches); the client
    resolves either way and the code does not read what it resolves to. *)
Inductive UpdateOutcome : Type :=
| Applied
| NotApplied.

(** The collaborators' answers, by the number of calls made before. *)
Record Env : Type := {
  storage_list : nat -> ListResponse;
  storage_getPublicUrl : nat -> string -> UrlResponse;
  sock_sendMessage : nat -> string -> string -> Completion SendReceipt;
  outbox_select_error : nat -> option string;
  outbox_update : nat -> UpdateOutcome;
  fs_write_fault : nat -> option (string * FileState);
  Date_toISOString : nat -> string
}.

(** ** State and exceptions *)

Definition M (A : Type) : Type := World -> Completion A * World.

Definition ret {A} (a : A) : M A := fun w => (Normal a, w).

Definition throw {A} (e : string) : M A := fun w => (Throw e, w).

Definition bind {A B} (m : M A) (k : A -> M B) : M B :=
  fun w =>
    match m w with
    | (Normal a, w') => k a w'
    | (Throw e, w') => (Throw e, w')
    end.

Definition try_catch {A} (m : M A) (handler : string -> M A) : M A :=
  fun w =>
    match m w with
    | (Normal a, w') => (Normal a, w')
    | (Throw e, w') => handler e w'
    end.

Notation "x <- m ;; k" := (bind m (fun x => k))
  (at level 61, m at next level, right associativity).
Notation "m ;;; k" := (bind m (fun _ => k))
  (at level 61, right associativity).

(** [for (const x of xs) body], where [continue] is the body returning. *)
Fixpoint for_of {A} (xs : list A) (body : A -> M unit) : M unit :=
  match xs with
  | [] => ret tt
  | x :: rest => body x ;;; for_of rest body
  end.

(** The world an action leaves, whichever way it completes. *)
Definition exec {A} (m : M A) (w : World) : World := snd (m w).

Definition emit (e : Event) : M unit :=
  fun w => (Normal tt,
            {| sentFiles := sentFiles w;
               sent_cache_json := sent_cache_json w;
               messages_outbox := messages_outbox w;
               tick := tick w;
               trace := trace w ++ [e] |}).

(** Every call that leaves the process takes the next oracle index. *)
Definition external : M nat :=
  fun w => (Normal (tick w),
            {| sentFiles := sentFiles w;
               sent_cache_json := sent_cache_json w;
               messages_outbox := messages_outbox w;
               tick := S (tick w);
               trace := trace w |}).

Definition get_sentFiles : M JSSet := fun w => (Normal (sentFiles w), w).

Definition set_sentFiles (s : JSSet) : M unit :=
  fun w => (Normal tt,
            {| sentFiles := s;
               sent_cache_json := sent_cache_json w;
               messages_outbox := messages_outbox w;
               tick := tick w;
               trace := trace w |}).

Definition set_sent_cache_json (f : FileState) : M unit :=
  fun w => (Normal tt,
            {| sentFiles := sentFiles w;
               sent_cache_json := f;
               messages_outbox := messages_outbox w;
               tick := tick w;
               trace := trace w |}).

Definition get_outbox : M (list OutboxRow) :=
  fun w => (Normal (messages_outbox w), w).

Definition set_outbox (t : list OutboxRow) : M unit :=
  fun w => (Normal tt,
            {| sentFiles := sentFiles w;
               sent_cache_json := sent_cache_json w;
               messages_outbox := t;
               tick := tick w;
               trace := trace w |}).

(** ** The database table *)

Definition is_unsent (r : OutboxRow) : bool :=
  match sent_at r with
  | None => true
  | Some _ => false
  end.

(** [select('*').is('sent_at', null).limit(50)], in the table's order. *)
Definition select_unsent (t : list OutboxRow) : list OutboxRow :=
  firstn 50 (filter is_unsent t).

Definition mark_sent (id : Z) (now : string) (receipt : option string)
    (r : OutboxRow) : OutboxRow :=
  if (row_id r =? id)%Z
  then {| row_id := row_id r;
          row_to := row_to r;
          row_message := row_message r;
          sent_at := Some now;
          wa_msg_id := receipt |}
  else r.

(** [update({sent_at, wa_msg_id}).eq('id', id)]. *)
Definition update_eq_id (id : Z) (now : string) (receipt : option string)
    (t : list OutboxRow) : list OutboxRow :=
  map (mark_sent id now receipt) t.

(** ** The two cycles *)

Section Cycles.

Variable JSON_stringify : JSON -> string.
Variable GROUP_JID : string.
Variable env : Env.

(** [saveSentCache(set)]: a failed write is caught and logged. *)
Definition saveSentCache (set : JSSet) : M unit :=
  try_catch
    (n <- external ;;
     match fs_write_fault env n with
     | None => set_sent_cache_json (Contents (JSON_stringify (JArr set)))
     | Some (e, left_behind) => set_sent_cache_json left_behind ;;; throw e
     end)
    (fun e => emit (EvConsole (CouldNotSaveSentCache e))).

(** [sock.sendMessage(jid, { text })], with the attempt put on the trace. *)
Definition sendMessage (c : Cause) (jid text : string) : M SendReceipt :=
  n <- external ;;
  match sock_sendMessage env n jid text with
  | Normal res => emit (EvSend c jid text true) ;;; ret res
  | Throw e => emit (EvSend c jid text false) ;;; throw e
  end.

Definition notification (file_name publicUrl : string) : string :=
  ("📄 New PDF uploaded:*" ++ file_name ++ "*" ++ LF ++ publicUrl)%string.

(** The suffix test [file.name?.toLowerCase().endsWith('.pdf')]. *)
Definition is_pdf (file : FileObject) : bool :=
  match name file with
  | Some n => endsWith (toLowerCase n) ".pdf"
  | None => false
  end.

(** The body of the loop of [pollBucketAndSend]. *)
Definition bucket_body (file : FileObject) : M unit :=
  match name file with
  | None => ret tt
  | Some file_name =>
    if negb (is_pdf file) then ret tt else
    sent <- get_sentFiles ;;
    if Set_has sent (JStr file_name) then ret tt else
    n <- external ;;
    let pub := storage_getPublicUrl env n file_name in
    match pub_error pub with
    | Some pubErr => emit (EvConsole (GetPublicUrlError pubErr))
    | None =>
      match pub_url pub with
      | None => ret tt
      | Some publicUrl =>
        if (publicUrl =? "")%string then ret tt else
        let text := notification file_name publicUrl in
        emit (EvConsole (SendingToGroup file_name publicUrl)) ;;;
        sendMessage (ForFile file_name) GROUP_JID text ;;;
        sent' <- get_sentFiles ;;
        set_sentFiles (Set_add sent' (JStr file_name)) ;;;
        sent'' <- get_sentFiles ;;
        saveSentCache sent''
      end
    end
  end.

Definition pollBucketAndSend : M unit :=
  try_catch
    (n <- external ;;
     let resp := storage_list env n in
     match list_error resp with
     | Some error => emit (EvConsole (StorageListError error))
     | None =>
       for_of (match list_data resp with Some data => data | None => [] end)
              bucket_body
     end)
    (fun e => emit (EvConsole (PollBucketFailed e))).

(** The body of the loop of [pollOutboxAndSend]. The update is awaited
    and its result dropped. *)
Definition outbox_body (row : OutboxRow) : M unit :=
  let to := or_else (row_to row) GROUP_JID in
  let message := or_else (row_message row) "" in
  if (message =? "")%string then ret tt else
  res <- sendMessage (ForRow (row_id row)) to message ;;
  n <- external ;;
  let now := Date_toISOString env n in
  let receipt := or_null (msg_id res) in
  match outbox_update env n with
  | Applied =>
    emit (EvUpdate (row_id row) now receipt) ;;;
    t <- get_outbox ;;
    set_outbox (update_eq_id (row_id row) now receipt t)
  | NotApplied =>
    emit (EvUpdateLost (row_id row) now receipt)
  end.

Definition pollOutboxAndSend : M unit :=
  try_catch
    (n <- external ;;
     match outbox_select_error env n with
     | Some _ => ret tt
     | None =>
       t <- get_outbox ;;
       for_of (select_unsent t) outbox_body
     end)
    (fun e => emit (EvConsole (PollOutboxFailed e))).

(** The cycles that run one after the other, in the order the timers fire. *)
Inductive Engine : Type := Bucket | Outbox.

Definition cycle (e : Engine) : M unit :=
  match e with
  | Bucket => pollBucketAndSend
  | Outbox => pollOutboxAndSend
  end.

Fixpoint run_cycles (es : list Engine) (w : World) : World :=
  match es with
  | [] => w
  | e :: rest => run_cycles rest (exec (cycle e) w)
  end.

End Cycles.

Arguments notification : simpl never.

(** ** The connection: [startWhatsApp] and its [connection.update] handler *)

Module Connection.

(** The transport's [connection] values. *)
Inductive WAConnectionState : Type := connecting | opened | closed.

Record ErrorOutput : Type := { statusCode : option Z }.

Record DisconnectError : Type := {
  output : option ErrorOutput;
  status : option Z
}.

Record LastDisconnect : Type := { error : option DisconnectError }.

Record ConnectionUpdate : Type := {
  connection : option WAConnectionState;
  qr : option string;
  lastDisconnect : option LastDisconnect
}.

(** One socket made by [makeWASocket], with the closure's [openedBrowser]
    and the state its last [connection.update] reported. *)
Record Socket : Type := {
  reported : WAConnectionState;
  openedBrowser : bool
}.

Inductive Action : Type :=
| CallStart
| StartRejected
| MakeSocket (sock : nat)
| SetInterval (e : Engine) (sock : nat)
| CallCycle (e : Engine) (sock : nat)
| OpenBrowser
| Reported (sock : nat) (c : WAConnectionState)
| ConsoleConnected
| ConsoleClosed (code : Z) (shouldReconnect : bool).

Record Process : Type := {
  latestQRDataURL : string;
  sockets : list Socket;
  intervals : list (Engine * nat);
  starts : nat;
  actions : list Action
}.

Definition initial : Process :=
  {| latestQRDataURL := "";
     sockets := [];
     intervals := [];
     starts := 0;
     actions := [] |}.

Definition log (a : list Action) (p : Process) : Process :=
  {| latestQRDataURL := latestQRDataURL p;
     sockets := sockets p;
     intervals := intervals p;
     starts := starts p;
     actions := actions p ++ a |}.

Definition set_latestQRDataURL (s : string) (p : Process) : Process :=
  {| latestQRDataURL := s;
     sockets := sockets p;
     intervals := intervals p;
     starts := starts p;
     actions := actions p |}.

Fixpoint update_nth {A} (k : nat) (f : A -> A) (l : list A) : list A :=
  match l, k with
  | [], _ => []
  | x :: r, 0 => f x :: r
  | x :: r, S k' => x :: update_nth k' f r
  end.

Definition update_socket (k : nat) (f : Socket -> Socket) (p : Process) : Process :=
  {| latestQRDataURL := latestQRDataURL p;
     sockets := update_nth k f (sockets p);
     intervals := intervals p;
     starts := starts p;
     actions := actions p |}.

(** [lastDisconnect?.error?.output?.statusCode || lastDisconnect?.error?.status || 0] *)
Definition close_code (ld : option LastDisconnect) : Z :=
  let err := match ld with Some d => error d | None => None end in
  let out := match err with Some e => output e | None => None end in
  let sc := match out with Some o => statusCode o | None => None end in
  let st := match err with Some e => status e | None => None end in
  num_or sc (num_or st 0).

Section Manager.

(** [DisconnectReason.loggedOut] and [QRCode.toDataURL] come from the
    libraries; [session_setup n] tells whether the credentials and the
    protocol version are obtained on the n-th start. *)
Variable loggedOut : Z.
Variable toDataURL : string -> string.
Variable session_setup : nat -> bool.

(** [startWhatsApp()]: from [makeWASocket] to the two first cycles nothing
    is awaited, so no event is handled in between. *)
Definition startWhatsApp (p : Process) : Process :=
  let k := List.length (sockets p) in
  let p1 :=
    {| latestQRDataURL := latestQRDataURL p;
       sockets := sockets p;
       intervals := intervals p;
       starts := S (starts p);
       actions := actions p ++ [CallStart] |} in
  if session_setup (starts p) then
    {| latestQRDataURL := latestQRDataURL p1;
       sockets := sockets p1 ++ [{| reported := connecting; openedBrowser := false |}];
       intervals := intervals p1 ++ [(Bucket, k); (Outbox, k)];
       starts := starts p1;
       actions := actions p1 ++ [MakeSocket k;
                                 SetInterval Bucket k; SetInterval Outbox k;
                                 CallCycle Bucket k; CallCycle Outbox k] |}
  else log [StartRejected] p1.

Definition report (k : nat) (u : ConnectionUpdate) (p : Process) : Process :=
  match connection u with
  | Some c =>
    log [Reported k c]
      (update_socket k (fun s => {| reported := c; openedBrowser := openedBrowser s |}) p)
  | None => p
  end.

(** [if (qr) { ... }] *)
Definition on_qr (k : nat) (u : ConnectionUpdate) (p : Process) : Process :=
  match qr u with
  | Some code =>
    if (code =? "")%string then p else
    let p1 := set_latestQRDataURL (toDataURL code) p in
    match nth_error (sockets p1) k with
    | Some s =>
      if openedBrowser s then p1
      else log [OpenBrowser]
             (update_socket k (fun s => {| reported := reported s; openedBrowser := true |}) p1)
    | None => p1
    end
  | None => p
  end.

(** [if (connection === 'open') { ... }] *)
Definition on_open (u : ConnectionUpdate) (p : Process) : Process :=
  match connection u with
  | Some opened => set_latestQRDataURL "" (log [ConsoleConnected] p)
  | _ => p
  end.

(** [if (connection === 'close') { ... }] *)
Definition on_close (u : ConnectionUpdate) (p : Process) : Process :=
  match connection u with
  | Some closed =>
    let code := close_code (lastDisconnect u) in
    let shouldReconnect := negb (code =? loggedOut)%Z in
    let p1 := log [ConsoleClosed code shouldReconnect] p in
    if shouldReconnect then startWhatsApp p1 else p1
  | _ => p
  end.

(** The handler registered with [sock.ev.on('connection.update', ...)] by
    the k-th socket's [startWhatsApp]. *)
Definition on_connection_update (k : nat) (u : ConnectionUpdate) (p : Process) : Process :=
  on_close u (on_open u (on_qr k u (report k u p))).

(** What the event loop delivers. *)
Inductive Input : Type :=
| ConnectionUpdateOf (sock : nat) (u : ConnectionUpdate)
| TimerFires (e : Engine) (sock : nat).

Definition timer_set (e : Engine) (k : nat) (p : Process) : bool :=
  existsb (fun t => match fst t, e with
                    | Bucket, Bucket | Outbox, Outbox => (snd t =? k)%nat
                    | _, _ => false
                    end) (intervals p).

Definition deliver (i : Input) (p : Process) : Process :=
  match i with
  | ConnectionUpdateOf k u =>
    if (k <? List.length (sockets p))%nat then on_connection_update k u p else p
  | TimerFires e k =>
    if timer_set e k p then log [CallCycle e k] p else p
  end.

(** The process from its first [startWhatsApp()] on. *)
Definition run (inputs : list Input) : Process :=
  fold_left (fun p i => deliver i p) inputs (startWhatsApp initial).

End Manager.

(** A log in which every cycle call of a socket comes after that socket
    was reported open. *)
Fixpoint cycles_after_open (seen_open : list nat) (acts : list Action) : bool :=
  match acts with
  | [] => true
  | Reported k opened :: rest => cycles_after_open (k :: seen_open) rest
  | CallCycle _ k :: rest =>
    existsb (Nat.eqb k) seen_open && cycles_after_open seen_open rest
  | _ :: rest => cycles_after_open seen_open rest
  end.

Definition is_scheduling (a : Action) : bool :=
  match a with
  | SetInterval _ _ | CallCycle _ _ => true
  | _ => false
  end.

Definition is_start (a : Action) : bool :=
  match a with
  | CallStart => true
  | _ => false
  end.

End Connection.


(** ** The inbox: the [messages.upsert] handler *)

Module Inbox.

Record MessageKey : Type := { remoteJid : option string }.

Record ExtendedText : Type := { text : option string }.

Record Captioned : Type := { caption : option string }.

Record MessageContent : Type := {
  conversation : option string;
  extendedTextMessage : option ExtendedText;
  imageMessage : option Captioned;
  videoMessage : option Captioned
}.

(** A message of the batch; [m.key.remoteJid] throws when [key] is absent. *)
Record WAMessage : Type := {
  key : option MessageKey;
  message : option MessageContent
}.

(** A row of [messages_inbox]. *)
Record InboxRecord : Type := {
  from_jid : string;
  to_jid : string;
  message_text : string;
  received_at : string
}.

(** What the insert does: the row is stored, the backend answers with an
    error (which the handler does not look at), or the call throws. *)
Inductive InsertOutcome : Type :=
| Stored
| Refused (error : string)
| Failed (e : string).

Record Archive : Type := {
  messages_inbox : list InboxRecord;
  calls : nat;
  warnings : list string
}.

(** [m.message?.conversation || m.message?.extendedTextMessage?.text ||
     m.message?.imageMessage?.caption || m.message?.videoMessage?.caption || ''] *)
Definition extract_text (m : WAMessage) : string :=
  let c := message m in
  let conv := match c with Some c => conversation c | None => None end in
  let ext := match c with
             | Some c => match extendedTextMessage c with
                         | Some x => text x
                         | None => None
                         end
             | None => None
             end in
  let img := match c with
             | Some c => match imageMessage c with
                         | Some x => caption x
                         | None => None
                         end
             | None => None
             end in
  let vid := match c with
             | Some c => match videoMessage c with
                         | Some x => caption x
                         | None => None
                         end
             | None => None
             end in
  or_else conv (or_else ext (or_else img (or_else vid ""))).

Section Archiver.

(** [sock.user?.id], the backend's answer to the n-th insert and the clock. *)
Variable self_id : option string.
Variable insert_outcome : nat -> InsertOutcome.
Variable Date_toISOString : nat -> string.

(** The [try] block of one iteration. *)
Definition archive_try (m : WAMessage) (st : Archive) : Completion unit * Archive :=
  match key m with
  | None => (Throw "Cannot read properties of undefined (reading 'remoteJid')", st)
  | Some k =>
    let from := or_else (remoteJid k) "" in
    let to := or_else self_id "" in
    let text := extract_text m in
    if (text =? "")%string then (Normal tt, st) else
    let n := calls st in
    match insert_outcome n with
    | Stored =>
      (Normal tt,
       {| messages_inbox :=
            messages_inbox st ++ [{| from_jid := from;
                                     to_jid := to;
                                     message_text := text;
                                     received_at := Date_toISOString n |}];
          calls := S n;
          warnings := warnings st |})
    | Refused _ =>
      (Normal tt,
       {| messages_inbox := messages_inbox st;
          calls := S n;
          warnings := warnings st |})
    | Failed e =>
      (Throw e,
       {| messages_inbox := messages_inbox st;
          calls := S n;
          warnings := warnings st |})
    end
  end.

(** One iteration: the [try] block and its [catch]. *)
Definition archive_one (st : Archive) (m : WAMessage) : Archive :=
  match archive_try m st with
  | (Normal _, st') => st'
  | (Throw e, st') =>
    {| messages_inbox := messages_inbox st';
       calls := calls st';
       warnings := warnings st' ++ [e] |}
  end.

(** The handler of [messages.upsert]. *)
Definition on_messages_upsert (type : string) (messages : list WAMessage)
    (st : Archive) : Archive :=
  if negb (type =? "notify")%string then st
  else fold_left archive_one messages st.

End Archiver.

End Inbox.

(** ** The configuration read at start-up *)

Module Config.

(** [process.env]. *)
Definition ProcessEnv := string -> option string.

Record Settings : Type := {
  SUPABASE_URL : string;
  SUPABASE_SERVICE_KEY : string;
  BUCKET_NAME : string;
  GROUP_JID : string;
  POLL_MS : string;
  AUTH_DIR : string;
  QR_PORT : string
}.

(** The process goes on with its settings, or exits with a code. *)
Inductive Startup : Type :=
| Running (c : Settings)
| Exit (code : Z) (missing : string).

(** The constants of the module and the two checks after them; [POLL_MS]
    and [QR_PORT] are kept as what is handed to [Number], written as text. *)
Definition startup (env : ProcessEnv) : Startup :=
  let url := env "SUPABASE_URL" in
  let service_key := env "SUPABASE_SERVICE_KEY" in
  let bucket := or_else (env "BUCKET_NAME") "pdf-notes" in
  let group_jid := env "GROUP_JID" in
  let poll := or_else (env "POLL_MS") "10000" in
  let auth_dir := or_else (env "AUTH_DIR") "./auth_info" in
  let port := or_else (env "QR_PORT") "3000" in
  if negb (truthy url) || negb (truthy service_key)
  then Exit 1 "❌ Missing SUPABASE_URL or SUPABASE_SERVICE_KEY in .env"
  else if negb (truthy group_jid)
  then Exit 1 "❌ Missing GROUP_JID (WhatsApp group JID) in .env"
  else Running {| SUPABASE_URL := or_else url "";
                  SUPABASE_SERVICE_KEY := or_else service_key "";
                  BUCKET_NAME := bucket;
                  GROUP_JID := or_else group_jid "";
                  POLL_MS := poll;
                  AUTH_DIR := auth_dir;
                  QR_PORT := port |}.

End Config.
(** * Specification predicates and fixtures *)

(** The suffix, letter by letter, in either case. *)
Definition pdf_suffix (sfx : string) : Prop :=
  exists c1 c2 c3,
    sfx = String "."%char (String c1 (String c2 (String c3 EmptyString))) /\
    (c1 = "p"%char \/ c1 = "P"%char) /\
    (c2 = "d"%char \/ c2 = "D"%char) /\
    (c3 = "f"%char \/ c3 = "F"%char).

Definition ends_in_pdf (file_name : string) : Prop :=
  exists stem sfx, file_name = (stem ++ sfx)%string /\ pdf_suffix sfx.

(** The double quote of a JSON text. *)
Definition DQ : string := String (ascii_of_nat 34) EmptyString.

Definition two_names_json : string :=
  ("[" ++ DQ ++ "a.pdf" ++ DQ ++ "," ++ DQ ++ "b.pdf" ++ DQ ++ "]")%string.

(** A parser that knows one text. *)
Definition parse_two_names (text : string) : Completion JSON :=
  if (text =? two_names_json)%string
  then Normal (JArr (map JStr ["a.pdf"; "b.pdf"]))
  else Throw "SyntaxError".

(** The in-memory set of sent names only gains members. *)
Definition ledger_grows (w w' : World) : Prop :=
  forall v, Set_has (sentFiles w) v = true -> Set_has (sentFiles w') v = true.

Definition no_failed_send (evs : list Event) : Prop :=
  forall c jid text, ~ In (EvSend c jid text false) evs.

(** What one bucket iteration, a run of iterations, or a whole bucket cycle
    adds to the world: [evs] are the events it emits. *)
Definition bucket_effect (GROUP_JID : string) (w : World)
    (r : Completion unit * World) (evs : list Event) : Prop :=
  trace (snd r) = trace w ++ evs /\
  messages_outbox (snd r) = messages_outbox w /\
  (forall i now receipt, ~ In (EvUpdate i now receipt) evs) /\
  ledger_grows w (snd r) /\
  (forall c jid text b, In (EvSend c jid text b) evs ->
     exists n, c = ForFile n /\ jid = GROUP_JID /\
               Set_has (sentFiles w) (JStr n) = false) /\
  (forall n jid text, In (EvSend (ForFile n) jid text true) evs ->
     Set_has (sentFiles (snd r)) (JStr n) = true) /\
  match fst r with
  | Normal _ => no_failed_send evs
  | Throw e =>
    exists evs1 n text,
      evs = evs1 ++ [EvSend (ForFile n) GROUP_JID text false] /\
      no_failed_send evs1 /\
      Set_has (sentFiles (snd r)) (JStr n) = false
  end.

(** The events an action adds to the trace of [w]. *)
Definition events_between (w w' : World) : list Event :=
  skipn (List.length (trace w)) (trace w').

Definition events_of {A} (m : M A) (w : World) : list Event :=
  events_between w (exec m w).

Definition is_send (e : Event) : bool :=
  match e with
  | EvSend _ _ _ _ => true
  | _ => false
  end.

(** A failed send is the last thing a bucket cycle does, apart from the
    log line of its [catch]; the file it was for is not in the set. *)
Definition ends_at_failure (w' : World) (evs : list Event) : Prop :=
  forall c jid text, In (EvSend c jid text false) evs ->
  exists evs1 n e,
    c = ForFile n /\
    evs = evs1 ++ [EvSend c jid text false; EvConsole (PollBucketFailed e)] /\
    no_failed_send evs1 /\
    Set_has (sentFiles w') (JStr n) = false.

(** ** Fixtures: a small bucket, a small outbox and their collaborators *)

Definition stringify_names (v : JSON) : string :=
  match v with
  | JArr elems =>
    ("[" ++ String.concat ","
              (map (fun e => match e with
                             | JStr s => DQ ++ s ++ DQ
                             | _ => "null"
                             end) elems) ++ "]")%string
  | _ => "null"
  end.

Definition group : string := "120363000000000000@g.us".

Definition three_files : list FileObject :=
  [ {| name := Some "a.pdf" |}; {| name := Some "b.pdf" |};
    {| name := Some "notes.txt" |} ].

Definition url_of (file_name : string) : string :=
  ("https://cdn.example/pdf-notes/" ++ file_name)%string.

(** Every collaborator answers and every update takes effect; sends
    succeed or fail as [send] says. *)
Definition env_with (files : list FileObject)
    (send : nat -> string -> string -> Completion SendReceipt) : Env :=
  {| storage_list := fun _ => {| list_data := Some files; list_error := None |};
     storage_getPublicUrl := fun _ n => {| pub_url := Some (url_of n); pub_error := None |};
     sock_sendMessage := send;
     outbox_select_error := fun _ => None;
     outbox_update := fun _ => Applied;
     fs_write_fault := fun _ => None;
     Date_toISOString := fun _ => "2024-05-01T10:00:00.000Z" |}.

(** As [env_with], with every update of the outbox lost. *)
Definition env_losing_updates
    (send : nat -> string -> string -> Completion SendReceipt) : Env :=
  {| storage_list := fun _ => {| list_data := Some []; list_error := None |};
     storage_getPublicUrl := fun _ n => {| pub_url := Some (url_of n); pub_error := None |};
     sock_sendMessage := send;
     outbox_select_error := fun _ => None;
     outbox_update := fun _ => NotApplied;
     fs_write_fault := fun _ => None;
     Date_toISOString := fun _ => "2024-05-01T10:00:00.000Z" |}.

Definition send_ok (n : nat) (jid text : string) : Completion SendReceipt :=
  Normal {| msg_id := Some "3EB0A1" |}.

Definition send_down (n : nat) (jid text : string) : Completion SendReceipt :=
  Throw "Connection Closed".

Definition world_with (sent : JSSet) (rows : list OutboxRow) : World :=
  {| sentFiles := sent;
     sent_cache_json := Absent;
     messages_outbox := rows;
     tick := 0;
     trace := [] |}.

(** ** The outbox cycle, seen from outside *)

Definition apply_event (t : list OutboxRow) (ev : Event) : list OutboxRow :=
  match ev with
  | EvUpdate id now receipt => update_eq_id id now receipt t
  | _ => t
  end.

(** The table after the updates of a trace, in order. *)
Definition apply_updates (evs : list Event) (t : list OutboxRow) : list OutboxRow :=
  fold_left apply_event evs t.

(** What a run of outbox iterations over [batch], or a whole outbox cycle
    that selected [batch], does between [w] and [w'], emitting [evs]. *)
Definition outbox_effect (GROUP_JID : string) (batch : list OutboxRow)
    (w w' : World) (evs : list Event) : Prop :=
  trace w' = trace w ++ evs /\
  sentFiles w' = sentFiles w /\
  messages_outbox w' = apply_updates evs (messages_outbox w) /\
  (forall c jid text b, In (EvSend c jid text b) evs ->
     exists row, In row batch /\ c = ForRow (row_id row) /\
                 jid = or_else (row_to row) GROUP_JID /\
                 text = or_else (row_message row) "" /\ text <> "") /\
  (forall i now receipt, In (EvUpdate i now receipt) evs ->
     exists jid text, In (EvSend (ForRow i) jid text true) evs) /\
  (forall i jid text, In (EvSend (ForRow i) jid text true) evs ->
     exists now receipt,
       In (EvUpdate i now receipt) evs \/ In (EvUpdateLost i now receipt) evs).

Definition after_failed_send (c : Cause) (jid text : string) (w : World) : World :=
  {| sentFiles := sentFiles w;
     sent_cache_json := sent_cache_json w;
     messages_outbox := messages_outbox w;
     tick := S (tick w);
     trace := trace w ++ [EvSend c jid text false] |}.

Definition after_sent_row (id : Z) (jid text now : string)
    (receipt : option string) (w : World) : World :=
  {| sentFiles := sentFiles w;
     sent_cache_json := sent_cache_json w;
     messages_outbox := update_eq_id id now receipt (messages_outbox w);
     tick := S (S (tick w));
     trace := trace w ++ [EvSend (ForRow id) jid text true;
                          EvUpdate id now receipt] |}.

(** The world after a delivered send whose update had no effect. *)
Definition after_lost_update (id : Z) (jid text now : string)
    (receipt : option string) (w : World) : World :=
  {| sentFiles := sentFiles w;
     sent_cache_json := sent_cache_json w;
     messages_outbox := messages_outbox w;
     tick := S (S (tick w));
     trace := trace w ++ [EvSend (ForRow id) jid text true;
                          EvUpdateLost id now receipt] |}.

Definition mark_by (r : OutboxRow) (ev : Event) : OutboxRow :=
  match ev with
  | EvUpdate id now receipt => mark_sent id now receipt r
  | _ => r
  end.

(** One row after the updates of a trace. *)
Definition marks (evs : list Event) (r : OutboxRow) : OutboxRow :=
  fold_left mark_by evs r.

(** A change of rows that keeps their ids and never unsets [sent_at]. *)
Definition ages (f : OutboxRow -> OutboxRow) : Prop :=
  forall x, row_id (f x) = row_id x /\ (is_unsent (f x) = true -> is_unsent x = true).

(** Every row with this id has [sent_at] set. *)
Definition settled (id : Z) (t : list OutboxRow) : Prop :=
  forall r, In r t -> row_id r = id -> is_unsent r = false.


(** The retry as the specification words it: a cycle attempts every row
    that is unsent and has a message. *)
Definition attempted_every_cycle (GROUP_JID : string) (env : Env)
    (w : World) : Prop :=
  forall r, In r (messages_outbox w) -> sent_at r = None ->
    or_else (row_message r) "" <> "" ->
    exists jid text b,
      In (EvSend (ForRow (row_id r)) jid text b)
         (events_of (pollOutboxAndSend GROUP_JID env) w).

Definition blocked_jid : string := "0000000000@s.whatsapp.net".

Definition row1 : OutboxRow :=
  {| row_id := 1; row_to := Some blocked_jid; row_message := Some "hi";
     sent_at := None; wa_msg_id := None |}.

Definition row2 : OutboxRow :=
  {| row_id := 2; row_to := None; row_message := Some "yo";
     sent_at := None; wa_msg_id := None |}.

Definition row3 : OutboxRow :=
  {| row_id := 3; row_to := None; row_message := None;
     sent_at := None; wa_msg_id := None |}.

(** A transport that refuses one target and delivers to every other. *)
Definition send_unless_blocked (n : nat) (jid text : string) : Completion SendReceipt :=
  if (jid =? blocked_jid)%string
  then Throw "not-authorized"
  else Normal {| msg_id := Some "3EB0A1" |}.

(** ** The connection, as the specification words it *)

(** No cycle of a socket is called before that socket was reported open,
    whatever the event loop delivers. *)
Definition schedulers_wait_for_open (loggedOut : Z)
    (toDataURL : string -> string) (session_setup : nat -> bool) : Prop :=
  forall inputs,
    Connection.cycles_after_open []
      (Connection.actions (Connection.run loggedOut toDataURL session_setup inputs))
    = true.

(** The handler up to its [close] branch. *)
Definition before_close (toDataURL : string -> string) (k : nat)
    (u : Connection.ConnectionUpdate) (p : Connection.Process) : Connection.Process :=
  Connection.on_open u (Connection.on_qr toDataURL k u (Connection.report k u p)).

Definition logged_out_401 : Connection.ConnectionUpdate :=
  {| Connection.connection := Some Connection.closed;
     Connection.qr := None;
     Connection.lastDisconnect :=
       Some {| Connection.error :=
                 Some {| Connection.output := Some {| Connection.statusCode := Some 401%Z |};
                         Connection.status := None |} |} |}.

Definition connection_lost_428 : Connection.ConnectionUpdate :=
  {| Connection.connection := Some Connection.closed;
     Connection.qr := None;
     Connection.lastDisconnect :=
       Some {| Connection.error :=
                 Some {| Connection.output := Some {| Connection.statusCode := Some 428%Z |};
                         Connection.status := None |} |} |}.

Definition session_open : Connection.ConnectionUpdate :=
  {| Connection.connection := Some Connection.opened;
     Connection.qr := None;
     Connection.lastDisconnect := None |}.

(** ** Proof steps used throughout *)

Ltac by_ascii_cases c :=
  destruct c as [[] [] [] [] [] [] [] []]; vm_compute;
  split; intros H; try discriminate H; auto;
  destruct H as [H | H]; try discriminate H; auto.

Ltac unfold_ops :=
  unfold exec, saveSentCache, sendMessage, try_catch, bind, ret, throw, emit,
    external, get_sentFiles, set_sentFiles, set_sent_cache_json,
    get_outbox, set_outbox in *.

Ltac split_match :=
  match goal with
  | |- context [match ?x with _ => _ end] =>
    lazymatch x with
    | context [match _ with _ => _ end] => fail
    | _ => destruct x eqn:?
    end
  end; simpl.

Ltac trace_eq :=
  simpl; repeat rewrite <- app_assoc; simpl;
  first [reflexivity | symmetry; apply app_nil_r].

Ltac in_events :=
  simpl; unfold no_failed_send, not; simpl; intros;
  repeat match goal with
         | H : _ \/ _ |- _ => destruct H
         | H : False |- _ => destruct H
         | H : _ = EvSend _ _ _ _ |- _ => inversion H; subst; clear H
         | H : _ = EvUpdate _ _ _ |- _ => inversion H; subst; clear H
         | H : _ = EvUpdateLost _ _ _ |- _ => inversion H; subst; clear H
         end.

(** ** The sent cache, in memory and on disk *)

(** A set of file names as [saveSentCache] writes it and the bucket cycle
    keeps it: strings only, none twice. *)
Definition name_set (s : JSSet) : Prop :=
  exists names, NoDup names /\ s = map JStr names.

(** The file holds what the set in memory serialises to. *)
Definition cache_synced (JSON_stringify : JSON -> string) (w : World) : Prop :=
  sent_cache_json w = Contents (JSON_stringify (JArr (sentFiles w))).

Definition no_write_faults (env : Env) : Prop :=
  forall n, fs_write_fault env n = None.

(** The file names of the delivered sends of a trace, in order. *)
Definition delivered_name (e : Event) : list string :=
  match e with
  | EvSend (ForFile n) _ _ true => [n]
  | _ => []
  end.

Definition delivered_names (evs : list Event) : list string :=
  flat_map delivered_name evs.

(** The file names of all send attempts of a trace, in order. *)
Definition attempted_name (e : Event) : list string :=
  match e with
  | EvSend (ForFile n) _ _ _ => [n]
  | _ => []
  end.

Definition attempted_names (evs : list Event) : list string :=
  flat_map attempted_name evs.

(** The names of a listing that pass the suffix test, in listing order. *)
Definition pdf_name (file : FileObject) : list string :=
  match name file with
  | Some n => if is_pdf file then [n] else []
  | None => []
  end.

Definition pdf_names (files : list FileObject) : list string :=
  flat_map pdf_name files.

(** [xs] is [ys] with some elements left out, order kept. *)
Inductive subsequence {A : Type} : list A -> list A -> Prop :=
| subseq_nil : subsequence [] []
| subseq_skip x xs ys : subsequence xs ys -> subsequence xs (x :: ys)
| subseq_take x xs ys : subsequence xs ys -> subsequence (x :: xs) (x :: ys).

(** A parser that knows the text [stringify_names] gives for one set. *)
Definition parse_only (s : JSSet) (text : string) : Completion JSON :=
  if (text =? stringify_names (JArr s))%string
  then Normal (JArr s)
  else Throw "SyntaxError".

(** What a bucket iteration, loop or cycle over [files] does to the set of
    sent names and to its file. *)
Definition ledger_effect (JSON_stringify : JSON -> string) (env : Env)
    (files : list FileObject) (w w' : World) (evs : list Event) : Prop :=
  trace w' = trace w ++ evs /\
  sentFiles w' = sentFiles w ++ map JStr (delivered_names evs) /\
  (name_set (sentFiles w) -> name_set (sentFiles w')) /\
  (no_write_faults env -> cache_synced JSON_stringify w ->
   cache_synced JSON_stringify w') /\
  subsequence (attempted_names evs) (pdf_names files).

(** The entries a bucket cycle started in [w] iterates over. *)
Definition listed (env : Env) (w : World) : list FileObject :=
  match list_error (storage_list env (tick w)) with
  | Some _ => []
  | None =>
    match list_data (storage_list env (tick w)) with
    | Some data => data
    | None => []
    end
  end.

(** A world whose file mirrors its set, for [stringify_names]. *)
Definition synced_world (sent : JSSet) : World :=
  {| sentFiles := sent;
     sent_cache_json := Contents (stringify_names (JArr sent));
     messages_outbox := [];
     tick := 0;
     trace := [] |}.

(** ** More on the outbox *)

(** The row ids of the send attempts of a trace, in order. *)
Definition attempted_row (e : Event) : list Z :=
  match e with
  | EvSend (ForRow i) _ _ _ => [i]
  | _ => []
  end.

Definition attempted_rows (evs : list Event) : list Z :=
  flat_map attempted_row evs.

(** The row as the update leaves it. *)
Definition sent_row (r : OutboxRow) (now : string) (receipt : option string) : OutboxRow :=
  {| row_id := row_id r;
     row_to := row_to r;
     row_message := row_message r;
     sent_at := Some now;
     wa_msg_id := receipt |}.

Definition updates_id (id : Z) (e : Event) : bool :=
  match e with
  | EvUpdate i _ _ => (i =? id)%Z
  | _ => false
  end.


(** ** The inbox, seen from outside *)

(** A message the handler tries to store: it has a key and some text. *)
Definition archivable (m : Inbox.WAMessage) : bool :=
  match Inbox.key m with
  | Some _ => negb (Inbox.extract_text m =? "")%string
  | None => false
  end.

Definition all_stored (insert_outcome : nat -> Inbox.InsertOutcome) : Prop :=
  forall n, insert_outcome n = Inbox.Stored.

Definition empty_archive : Inbox.Archive :=
  {| Inbox.messages_inbox := []; Inbox.calls := 0; Inbox.warnings := [] |}.

Definition plain_message (jid body : string) : Inbox.WAMessage :=
  {| Inbox.key := Some {| Inbox.remoteJid := Some jid |};
     Inbox.message :=
       Some {| Inbox.conversation := Some body;
               Inbox.extendedTextMessage := None;
               Inbox.imageMessage := None;
               Inbox.videoMessage := None |} |}.

Definition photo_message (jid title : string) : Inbox.WAMessage :=
  {| Inbox.key := Some {| Inbox.remoteJid := Some jid |};
     Inbox.message :=
       Some {| Inbox.conversation := None;
               Inbox.extendedTextMessage := None;
               Inbox.imageMessage := Some {| Inbox.caption := Some title |};
               Inbox.videoMessage := None |} |}.

(** The first insert throws, the later ones are stored. *)
Definition first_insert_fails (n : nat) : Inbox.InsertOutcome :=
  match n with
  | 0 => Inbox.Failed "fetch failed"
  | S _ => Inbox.Stored
  end.

(** ** The connection, counted *)

Definition is_open_browser (a : Connection.Action) : bool :=
  match a with
  | Connection.OpenBrowser => true
  | _ => false
  end.

Definition browsers_opened (p : Connection.Process) : nat :=
  List.length (filter is_open_browser (Connection.actions p)).

Definition sockets_with_browser (p : Connection.Process) : nat :=
  List.length (filter Connection.openedBrowser (Connection.sockets p)).

(** The timers of sockets [0 .. n-1], in the order they were set. *)
Definition timers_of (n : nat) : list (Engine * nat) :=
  flat_map (fun k => [(Bucket, k); (Outbox, k)]) (seq 0 n).

Definition qr_update (code : string) : Connection.ConnectionUpdate :=
  {| Connection.connection := None;
     Connection.qr := Some code;
     Connection.lastDisconnect := None |}.

Definition env_of (pairs : list (string * string)) : Config.ProcessEnv :=
  fun k =>
    match find (fun kv => (fst kv =? k)%string) pairs with
    | Some kv => Some (snd kv)
    | None => None
    end.

(** The state the event loop keeps true: every socket made so far has its
    two timers, and the browser was opened once for each socket whose flag
    is set. *)
Definition steady (p : Connection.Process) : Prop :=
  Connection.intervals p = timers_of (List.length (Connection.sockets p)) /\
  browsers_opened p = sockets_with_browser p.

Definition keyless (m : Inbox.WAMessage) : bool :=
  match Inbox.key m with
  | Some _ => false
  | None => true
  end.

(** The backend answers every insert with an error and never throws. *)
Definition all_refused (insert_outcome : nat -> Inbox.InsertOutcome) : Prop :=
  forall n, exists err, insert_outcome n = Inbox.Refused err.

Definition keyless_message : Inbox.WAMessage :=
  {| Inbox.key := None; Inbox.message := None |}.

(** The public URL of a name always resolves to something. *)
Definition url_resolves (env : Env) (n : string) : Prop :=
  forall k, pub_error (storage_getPublicUrl env k n) = None /\
            exists u, pub_url (storage_getPublicUrl env k n) = Some u /\ u <> "".

(** * Properties *)

(** ** Strings *)

Lemma substring_all (t : string) : substring 0 (String.length t) t = t.
Proof.
  induction t as [|c t IH]; simpl; [reflexivity | now rewrite IH].
Qed.

Lemma substring_skip (p t : string) :
  substring (String.length p) (String.length t) (p ++ t)%string = t.
Proof.
  induction p as [|c p IH]; simpl; [apply substring_all | exact IH].
Qed.

Lemma substring_split (s : string) :
  forall k, k <= String.length s ->
  s = (substring 0 k s ++ substring k (String.length s - k) s)%string.
Proof.
  induction s as [|c s IH]; intros k Hk.
  - destruct k; reflexivity.
  - destruct k as [|k]; simpl.
    + now rewrite substring_all.
    + simpl in Hk. f_equal. apply IH. lia.
Qed.

Lemma length_append (a b : string) :
  String.length (a ++ b)%string = String.length a + String.length b.
Proof.
  induction a as [|c a IH]; simpl; [reflexivity | now rewrite IH].
Qed.

Lemma endsWith_spec (s t : string) :
  endsWith s t = true <-> exists p, s = (p ++ t)%string.
Proof.
  unfold endsWith. split.
  - intros H. apply andb_true_iff in H as [Hle Heq].
    apply Nat.leb_le in Hle. apply String.eqb_eq in Heq.
    remember (String.length s - String.length t) as k eqn:Hk.
    assert (Hm : String.length t = String.length s - k) by lia.
    rewrite Hm in Heq. exists (substring 0 k s). rewrite <- Heq.
    apply substring_split. lia.
  - intros [p ->]. rewrite length_append. apply andb_true_iff. split.
    + apply Nat.leb_le. lia.
    + replace (String.length p + String.length t - String.length t)
        with (String.length p) by lia.
      rewrite substring_skip. apply String.eqb_refl.
Qed.

Lemma toLowerCase_append (a b : string) :
  toLowerCase (a ++ b) = (toLowerCase a ++ toLowerCase b)%string.
Proof.
  induction a as [|c a IH]; simpl; [reflexivity | now rewrite IH].
Qed.

Lemma toLowerCase_append_inv (a b : string) :
  forall s, toLowerCase s = (a ++ b)%string ->
  exists s1 s2, s = (s1 ++ s2)%string /\ toLowerCase s1 = a /\ toLowerCase s2 = b.
Proof.
  induction a as [|c a IH]; intros s H.
  - exists EmptyString, s. auto.
  - destruct s as [|d s]; simpl in H; [discriminate|].
    injection H as Hc Hs. destruct (IH _ Hs) as (s1 & s2 & -> & H1 & H2).
    exists (String d s1), s2. simpl. rewrite Hc, H1. auto.
Qed.

Lemma lower_ascii_p (c : ascii) :
  lower_ascii c = "p"%char <-> c = "p"%char \/ c = "P"%char.
Proof. by_ascii_cases c. Qed.

Lemma lower_ascii_d (c : ascii) :
  lower_ascii c = "d"%char <-> c = "d"%char \/ c = "D"%char.
Proof. by_ascii_cases c. Qed.

Lemma lower_ascii_f (c : ascii) :
  lower_ascii c = "f"%char <-> c = "f"%char \/ c = "F"%char.
Proof. by_ascii_cases c. Qed.

Lemma lower_ascii_dot (c : ascii) :
  lower_ascii c = "."%char <-> c = "."%char.
Proof.
  destruct c as [[] [] [] [] [] [] [] []]; vm_compute;
  split; intros H; try discriminate H; auto.
Qed.


Lemma toLowerCase_pdf (sfx : string) :
  toLowerCase sfx = ".pdf" <-> pdf_suffix sfx.
Proof.
  split.
  - intros H.
    destruct sfx as [|c0 [|c1 [|c2 [|c3 r]]]]; simpl in H; try discriminate H.
    destruct r; [|discriminate H].
    injection H as H0 H1 H2 H3.
    apply -> lower_ascii_dot in H0. rewrite H0.
    exists c1, c2, c3. split; [reflexivity|].
    rewrite <- lower_ascii_p, <- lower_ascii_d, <- lower_ascii_f. auto.
  - intros (c1 & c2 & c3 & -> & H1 & H2 & H3). simpl.
    apply <- lower_ascii_p in H1. apply <- lower_ascii_d in H2. apply <- lower_ascii_f in H3.
    rewrite H1, H2, H3. reflexivity.
Qed.

Lemma is_pdf_spec (file : FileObject) :
  is_pdf file = true <-> exists n, name file = Some n /\ ends_in_pdf n.
Proof.
  unfold is_pdf. destruct (name file) as [n|].
  - rewrite endsWith_spec. split.
    + intros [p Hp]. apply toLowerCase_append_inv in Hp as (s1 & s2 & -> & _ & H2).
      exists (s1 ++ s2)%string. split; [reflexivity|].
      exists s1, s2. split; [reflexivity|]. now apply toLowerCase_pdf.
    + intros (n' & Hn & stem & sfx & Hd & Hs). injection Hn as ->. subst n'.
      exists (toLowerCase stem). rewrite toLowerCase_append.
      apply toLowerCase_pdf in Hs. now rewrite Hs.
  - split; [discriminate|]. intros (n & Hn & _). discriminate.
Qed.

(** ** The [Set] of sent names *)

Lemma sameValueZero_eq (x y : JSON) : sameValueZero x y = true -> x = y.
Proof.
  destruct x, y; simpl; try discriminate; intros H; try reflexivity.
  - apply Bool.eqb_prop in H. now subst.
  - apply Z.eqb_eq in H. now subst.
  - apply String.eqb_eq in H. now subst.
Qed.

Lemma Set_has_JStr (s : JSSet) (n : string) :
  Set_has s (JStr n) = true <-> In (JStr n) s.
Proof.
  unfold Set_has. rewrite existsb_exists. split.
  - intros (x & Hx & Hv). apply sameValueZero_eq in Hv. now subst.
  - intros H. exists (JStr n). split; [exact H|]. simpl. apply String.eqb_refl.
Qed.

Lemma Set_add_has (s : JSSet) (x v : JSON) :
  Set_has (Set_add s x) v = Set_has s v || sameValueZero v x.
Proof.
  unfold Set_add. destruct (Set_has s x) eqn:Hx.
  - destruct (sameValueZero v x) eqn:Hv; [|now rewrite orb_false_r].
    apply sameValueZero_eq in Hv. subst. rewrite Hx. reflexivity.
  - unfold Set_has. rewrite existsb_app. simpl. now rewrite orb_false_r.
Qed.

Lemma Set_add_keeps (s : JSSet) (x v : JSON) :
  Set_has s v = true -> Set_has (Set_add s x) v = true.
Proof. intros H. rewrite Set_add_has, H. reflexivity. Qed.

Lemma fold_Set_add_has (l : list JSON) :
  forall acc v,
  Set_has (fold_left Set_add l acc) v = Set_has acc v || existsb (sameValueZero v) l.
Proof.
  induction l as [|x l IH]; intros acc v; simpl.
  - now rewrite orb_false_r.
  - rewrite IH, Set_add_has, orb_assoc. reflexivity.
Qed.

Lemma fold_Set_add_fresh (names : list string) :
  forall acc, NoDup names ->
  (forall n, In n names -> ~ In (JStr n) acc) ->
  fold_left Set_add (map JStr names) acc = acc ++ map JStr names.
Proof.
  induction names as [|n names IH]; intros acc Hnd Hfresh; simpl.
  - now rewrite app_nil_r.
  - inversion Hnd as [|? ? Hn Hnd']; subst.
    assert (Hno : Set_has acc (JStr n) = false).
    { destruct (Set_has acc (JStr n)) eqn:E; [|reflexivity].
      apply Set_has_JStr in E. exfalso. apply (Hfresh n); simpl; auto. }
    unfold Set_add at 2. rewrite Hno. rewrite IH; trivial.
    + now rewrite <- app_assoc.
    + intros m Hm Hin. apply in_app_or in Hin as [Hin | [Heq | []]].
      * apply (Hfresh m); simpl; auto.
      * injection Heq as ->. contradiction.
Qed.

(** C7: loading the sent cache never fails. A missing or unreadable file,
    a text [JSON.parse] rejects, or a parsed value that cannot be iterated
    all give the empty set; a text that parses to an array of names gives
    the set of exactly those names, in the persisted order when the array
    has no repetition (as [saveSentCache] writes it). *)
Theorem loadSentCache_best_effort (JSON_parse : string -> Completion JSON) :
  loadSentCache JSON_parse Absent = [] /\
  loadSentCache JSON_parse Unreadable = [] /\
  (forall text e, JSON_parse text = Throw e ->
     loadSentCache JSON_parse (Contents text) = []) /\
  (forall text v e, JSON_parse text = Normal v -> new_Set v = Throw e ->
     loadSentCache JSON_parse (Contents text) = []) /\
  (forall text names, JSON_parse text = Normal (JArr (map JStr names)) ->
     (forall n, Set_has (loadSentCache JSON_parse (Contents text)) (JStr n) = true
                <-> In n names) /\
     (NoDup names -> loadSentCache JSON_parse (Contents text) = map JStr names)).
Proof.
  unfold loadSentCache. simpl. repeat split.
  - intros text e H. now rewrite H.
  - intros text v e H Hs. rewrite H. simpl. now rewrite Hs.
  - rewrite H. simpl. rewrite fold_Set_add_has. simpl.
    rewrite existsb_exists. intros (x & Hx & Hv).
    apply sameValueZero_eq in Hv. subst x.
    apply in_map_iff in Hx as (m & Hm & Hin). now injection Hm as <-.
  - intros Hin. rewrite H. simpl. rewrite fold_Set_add_has. simpl.
    apply existsb_exists. exists (JStr n). split.
    + now apply in_map.
    + simpl. apply String.eqb_refl.
  - intros Hnd. rewrite H. simpl.
    now rewrite fold_Set_add_fresh by (trivial; intros ? ? []).
Qed.


Lemma loadSentCache_best_effort_witness :
  loadSentCache parse_two_names (Contents "{") = [] /\
  loadSentCache parse_two_names (Contents two_names_json)
    = [JStr "a.pdf"; JStr "b.pdf"].
Proof.
  destruct (loadSentCache_best_effort parse_two_names) as (_ & _ & Hbad & _ & Hgood).
  split.
  - apply (Hbad "{" "SyntaxError"). reflexivity.
  - apply (Hgood two_names_json ["a.pdf"; "b.pdf"]).
    + reflexivity.
    + repeat constructor; simpl; intuition discriminate.
Defined.

(** ** The bucket cycle *)

Lemma events_between_trace (w w' : World) (evs : list Event) :
  trace w' = trace w ++ evs -> events_between w w' = evs.
Proof.
  intros H. unfold events_between. rewrite H.
  rewrite skipn_app, skipn_all, Nat.sub_diag. reflexivity.
Qed.

Lemma events_of_trace {A} (m : M A) (w : World) (evs : list Event) :
  trace (exec m w) = trace w ++ evs -> events_of m w = evs.
Proof. apply events_between_trace. Qed.

Lemma for_of_app {A} (xs ys : list A) (f : A -> M unit) (w : World) :
  for_of (xs ++ ys) f w
  = match for_of xs f w with
    | (Normal _, w1) => for_of ys f w1
    | (Throw e, w1) => (Throw e, w1)
    end.
Proof.
  revert w. induction xs as [|x xs IH]; intros w; simpl.
  - reflexivity.
  - unfold bind. destruct (f x w) as [[[]|e] w1]; [apply IH | reflexivity].
Qed.

Section BucketCycle.

Variable JSON_stringify : JSON -> string.
Variable GROUP_JID : string.
Variable env : Env.

Local Notation body := (bucket_body JSON_stringify GROUP_JID env).
Local Notation poll := (pollBucketAndSend JSON_stringify GROUP_JID env).

Lemma bucket_body_skips (file : FileObject) (w : World) :
  is_pdf file = false -> body file w = (Normal tt, w).
Proof.
  intros H. unfold bucket_body. rewrite H. simpl.
  destruct (name file); reflexivity.
Qed.

Lemma bucket_body_known (file : FileObject) (n : string) (w : World) :
  name file = Some n -> Set_has (sentFiles w) (JStr n) = true ->
  body file w = (Normal tt, w).
Proof.
  intros Hn H. unfold bucket_body. rewrite Hn.
  destruct (negb (is_pdf file)); [reflexivity|].
  unfold_ops. simpl. now rewrite H.
Qed.

Lemma bucket_body_attempts (file : FileObject) (n u : string) (w : World) :
  name file = Some n -> is_pdf file = true ->
  Set_has (sentFiles w) (JStr n) = false ->
  pub_error (storage_getPublicUrl env (tick w) n) = None ->
  pub_url (storage_getPublicUrl env (tick w) n) = Some u ->
  u <> "" ->
  exists b evs,
    trace (exec (body file) w)
    = trace w ++ [EvConsole (SendingToGroup n u);
                  EvSend (ForFile n) GROUP_JID (notification n u) b] ++ evs.
Proof.
  intros Hn Hp Hs He Hu Hne. apply String.eqb_neq in Hne.
  unfold bucket_body. rewrite Hn, Hp. unfold_ops. simpl.
  rewrite Hs, He, Hu, Hne. simpl.
  repeat split_match; simpl; repeat rewrite <- app_assoc; simpl;
    eexists; eexists; reflexivity.
Qed.

Lemma ledger_grows_refl (w : World) : ledger_grows w w.
Proof. intros v H. exact H. Qed.

Lemma ledger_grows_trans (w1 w2 w3 : World) :
  ledger_grows w1 w2 -> ledger_grows w2 w3 -> ledger_grows w1 w3.
Proof. intros H12 H23 v H. auto. Qed.

Lemma bucket_body_effect (file : FileObject) (w : World) :
  exists evs, bucket_effect GROUP_JID w (body file w) evs.
Proof.
  unfold bucket_body, bucket_effect. unfold_ops.
  repeat split_match.
  all: (eexists; split; [trace_eq|]).
  all: (split; [reflexivity|]).
  all: (split; [in_events|]).
  all: (split; [intros v Hv; simpl;
                first [exact Hv | now apply Set_add_keeps]|]).
  all: (split; [in_events; eauto|]).
  all: (split; [in_events;
                try (rewrite Set_add_has; simpl;
                     rewrite String.eqb_refl; apply orb_true_r)|]).
  all: try (in_events; fail).
  eexists [_], _, _. split; [reflexivity|]. split; [in_events | assumption].
Qed.

Lemma bucket_loop_effect (files : list FileObject) :
  forall w, exists evs, bucket_effect GROUP_JID w (for_of files body w) evs.
Proof.
  induction files as [|file rest IH]; intros w.
  - exists []. unfold bucket_effect. simpl.
    split; [symmetry; apply app_nil_r|]. split; [reflexivity|].
    split; [in_events|]. split; [apply ledger_grows_refl|].
    split; [in_events|]. split; in_events.
  - destruct (bucket_body_effect file w) as (evs1 & Ht1 & Ho1 & Hn1 & Hg1 & Hs1 & Hk1 & Hc1).
    simpl. unfold bind at 1.
    destruct (body file w) as [[[]|e] w1] eqn:E; simpl in *.
    + destruct (IH w1) as (evs2 & Ht2 & Ho2 & Hn2 & Hg2 & Hs2 & Hk2 & Hc2).
      exists (evs1 ++ evs2). unfold bucket_effect.
      split; [rewrite Ht2, Ht1; symmetry; apply app_assoc|].
      split; [congruence|].
      split.
      { intros i now rc Hin. apply in_app_or in Hin as [Hin | Hin].
        - exact (Hn1 _ _ _ Hin).
        - exact (Hn2 _ _ _ Hin). }
      split; [eapply ledger_grows_trans; eassumption|].
      split.
      { intros c jid text b Hin. apply in_app_or in Hin as [Hin | Hin].
        - eauto.
        - destruct (Hs2 _ _ _ _ Hin) as (n & -> & -> & Hn).
          exists n. repeat split.
          destruct (Set_has (sentFiles w) (JStr n)) eqn:Hw; [|reflexivity].
          apply Hg1 in Hw. congruence. }
      split.
      { intros n jid text Hin. apply in_app_or in Hin as [Hin | Hin]; eauto. }
      destruct (fst (for_of rest body w1)).
      * intros c jid text Hin. apply in_app_or in Hin as [Hin | Hin].
        -- exact (Hc1 _ _ _ Hin).
        -- exact (Hc2 _ _ _ Hin).
      * destruct Hc2 as (evs3 & n & text & -> & Hno & Hn).
        exists (evs1 ++ evs3), n, text. split; [apply app_assoc|].
        split; [|exact Hn].
        intros c jid text' Hin. apply in_app_or in Hin as [Hin | Hin].
        -- exact (Hc1 _ _ _ Hin).
        -- exact (Hno _ _ _ Hin).
    + exists evs1. unfold bucket_effect. simpl. auto 10.
Qed.

Lemma bucket_cycle_effect (w : World) :
  fst (poll w) = Normal tt /\
  exists evs,
    trace (exec poll w) = trace w ++ evs /\
    messages_outbox (exec poll w) = messages_outbox w /\
    (forall i now receipt, ~ In (EvUpdate i now receipt) evs) /\
    ledger_grows w (exec poll w) /\
    (forall c jid text b, In (EvSend c jid text b) evs ->
       exists n, c = ForFile n /\ jid = GROUP_JID /\
                 Set_has (sentFiles w) (JStr n) = false) /\
    (forall n jid text, In (EvSend (ForFile n) jid text true) evs ->
       Set_has (sentFiles (exec poll w)) (JStr n) = true) /\
    ends_at_failure (exec poll w) evs.
Proof.
  unfold pollBucketAndSend, exec, try_catch, bind, external. simpl.
  destruct (list_error (storage_list env (tick w))) as [err|].
  - simpl. split; [reflexivity|]. exists [EvConsole (StorageListError err)].
    split; [reflexivity|]. split; [reflexivity|]. split; [in_events|].
    split; [intros v Hv; exact Hv|].
    split; [in_events|]. split; [in_events|].
    intros c jid text Hin. simpl in Hin. in_events.
  - set (w0 := {| sentFiles := sentFiles w;
                  sent_cache_json := sent_cache_json w;
                  messages_outbox := messages_outbox w;
                  tick := S (tick w);
                  trace := trace w |}).
    set (files := match list_data (storage_list env (tick w)) with
                  | Some data => data
                  | None => []
                  end).
    destruct (bucket_loop_effect files w0) as (evs & Ht & Ho & Hup & Hg & Hs & Hk & Hc).
    destruct (for_of files body w0) as [[[]|e] w1]; simpl in *.
    + split; [reflexivity|]. exists evs. repeat split; trivial.
      intros c jid text Hin. destruct (Hc _ _ _ Hin).
    + split; [reflexivity|].
      destruct Hc as (evs1 & n & text & -> & Hno & Hn).
      exists ((evs1 ++ [EvSend (ForFile n) GROUP_JID text false])
              ++ [EvConsole (PollBucketFailed e)]).
      split; [rewrite Ht; symmetry; apply app_assoc|].
      split; [exact Ho|].
      split.
      { intros i now rc Hin. apply in_app_or in Hin as [Hin | Hin];
          [exact (Hup _ _ _ Hin) | simpl in Hin; in_events]. }
      split; [exact Hg|].
      split.
      { intros c jid t b Hin. apply in_app_or in Hin as [Hin | Hin]; [eauto|].
        simpl in Hin. in_events. }
      split.
      { intros m jid t Hin. apply in_app_or in Hin as [Hin | Hin]; [eauto|].
        simpl in Hin. in_events. }
      intros c jid t Hin. rewrite <- app_assoc in Hin.
      apply in_app_or in Hin as [Hin | Hin].
      * destruct (Hno _ _ _ Hin).
      * simpl in Hin. in_events. exists evs1, n, e. rewrite <- app_assoc. auto.
Qed.

Lemma bucket_body_sends (file : FileObject) (n u : string) (r : SendReceipt) (w : World) :
  name file = Some n -> is_pdf file = true ->
  Set_has (sentFiles w) (JStr n) = false ->
  storage_getPublicUrl env (tick w) n = {| pub_url := Some u; pub_error := None |} ->
  u <> "" ->
  sock_sendMessage env (S (tick w)) GROUP_JID (notification n u) = Normal r ->
  exists w' evs,
    body file w = (Normal tt, w') /\
    sentFiles w' = sentFiles w ++ [JStr n] /\
    tick w' = 3 + tick w /\
    trace w' = trace w ++ evs /\
    filter is_send evs = [EvSend (ForFile n) GROUP_JID (notification n u) true].
Proof.
  intros Hn Hp Hs Hu Hne Hr. apply String.eqb_neq in Hne.
  unfold bucket_body. rewrite Hn, Hp. unfold_ops. simpl.
  rewrite Hs, Hu. simpl. rewrite Hne. simpl. rewrite Hr. simpl.
  unfold Set_add. rewrite Hs.
  split_match.
  - destruct p as [e left_behind]. simpl.
    eexists; eexists. split; [reflexivity|]. simpl.
    split; [reflexivity|]. split; [reflexivity|]. split; [trace_eq|]. reflexivity.
  - eexists; eexists. split; [reflexivity|]. simpl.
    split; [reflexivity|]. split; [reflexivity|]. split; [trace_eq|]. reflexivity.
Qed.

Lemma bucket_body_throws (file : FileObject) (w w' : World) (e : string) :
  body file w = (Throw e, w') -> sentFiles w' = sentFiles w.
Proof.
  unfold bucket_body. unfold_ops.
  repeat split_match; intros H; inversion H; reflexivity.
Qed.

Lemma bucket_cycle_skips_known (w : World) (n : string) :
  Set_has (sentFiles w) (JStr n) = true ->
  forall jid text b, ~ In (EvSend (ForFile n) jid text b) (events_of poll w).
Proof.
  intros Hn jid text b Hin.
  destruct (bucket_cycle_effect w) as (_ & evs & Ht & _ & _ & _ & Hs & _).
  rewrite (events_of_trace _ _ _ Ht) in Hin.
  destruct (Hs _ _ _ _ Hin) as (m & Hm & _ & Hfalse).
  injection Hm as <-. congruence.
Qed.

(** C1: a bucket cycle sends nothing for a name that is already in the set
    of sent files; so of two consecutive cycles, whatever the listing, the
    second sends nothing for a name that is in the set after the first, and
    every name the first one delivered is in that set. *)
Theorem bucket_cycle_idempotent (w : World) (n : string) :
  (Set_has (sentFiles w) (JStr n) = true ->
   forall jid text b, ~ In (EvSend (ForFile n) jid text b) (events_of poll w)) /\
  (Set_has (sentFiles (exec poll w)) (JStr n) = true \/
   (exists jid text, In (EvSend (ForFile n) jid text true) (events_of poll w)) ->
   forall jid text b,
     ~ In (EvSend (ForFile n) jid text b) (events_of poll (exec poll w))).
Proof.
  split; [apply bucket_cycle_skips_known|].
  intros H. apply bucket_cycle_skips_known.
  destruct H as [H | (jid & text & Hin)]; [exact H|].
  destruct (bucket_cycle_effect w) as (_ & evs & Ht & _ & _ & _ & _ & Hk & _).
  rewrite (events_of_trace _ _ _ Ht) in Hin. eauto.
Qed.

(** C6: with the listing a.pdf, b.pdf, notes.txt, an empty set of sent
    files, every public URL resolved and every send delivered, one bucket
    cycle makes exactly two sends, for a.pdf then b.pdf, and leaves the set
    holding a.pdf and b.pdf; nothing is sent or recorded for notes.txt. *)
Theorem bucket_scenario_three_files (w : World) (url : string -> string) :
  sentFiles w = [] ->
  storage_list env (tick w)
    = {| list_data := Some three_files; list_error := None |} ->
  (forall k n, storage_getPublicUrl env k n
               = {| pub_url := Some (url n); pub_error := None |}) ->
  (forall n, url n <> "") ->
  (forall k jid text, exists r, sock_sendMessage env k jid text = Normal r) ->
  filter is_send (events_of poll w)
    = [ EvSend (ForFile "a.pdf") GROUP_JID (notification "a.pdf" (url "a.pdf")) true;
        EvSend (ForFile "b.pdf") GROUP_JID (notification "b.pdf" (url "b.pdf")) true ] /\
  sentFiles (exec poll w) = [JStr "a.pdf"; JStr "b.pdf"].
Proof.
  intros Hempty Hlist Hurl Hne Hsend.
  set (w0 := {| sentFiles := sentFiles w;
                sent_cache_json := sent_cache_json w;
                messages_outbox := messages_outbox w;
                tick := S (tick w);
                trace := trace w |}).
  destruct (Hsend (S (tick w0)) GROUP_JID (notification "a.pdf" (url "a.pdf")))
    as [ra Hra].
  destruct (bucket_body_sends {| name := Some "a.pdf" |} "a.pdf" (url "a.pdf") ra w0)
    as (w1 & evs1 & Hb1 & Hs1 & Ht1 & Hv1 & Hf1); trivial.
  { simpl. now rewrite Hempty. }
  destruct (Hsend (S (tick w1)) GROUP_JID (notification "b.pdf" (url "b.pdf")))
    as [rb Hrb].
  destruct (bucket_body_sends {| name := Some "b.pdf" |} "b.pdf" (url "b.pdf") rb w1)
    as (w2 & evs2 & Hb2 & Hs2 & Ht2 & Hv2 & Hf2); trivial.
  { rewrite Hs1. simpl. now rewrite Hempty. }
  assert (Hrun : poll w = (Normal tt, w2)).
  { unfold pollBucketAndSend, try_catch, bind, external. simpl.
    rewrite Hlist. simpl. unfold bind. fold w0.
    rewrite Hb1, Hb2.
    rewrite (bucket_body_skips {| name := Some "notes.txt" |} w2) by reflexivity.
    reflexivity. }
  unfold exec. rewrite Hrun. simpl. split.
  - rewrite (events_of_trace poll w (evs1 ++ evs2)).
    + now rewrite filter_app, Hf1, Hf2.
    + unfold exec. rewrite Hrun. simpl. rewrite Hv2, Hv1. simpl.
      symmetry. apply app_assoc.
  - rewrite Hs2, Hs1. simpl. now rewrite Hempty.
Qed.

(** C8: the suffix test passes exactly the names that end in a dot followed
    by the letters p, d, f, each in either case (REPORT.PDF passes). A file
    that fails the test is skipped: its iteration leaves the world as it
    was. A file that passes it, is not yet in the set and has a public URL
    gets a send attempt. *)
Theorem suffix_filter_case_insensitive (file : FileObject) (w : World) :
  (is_pdf file = true <-> exists n, name file = Some n /\ ends_in_pdf n) /\
  (is_pdf file = false -> body file w = (Normal tt, w)) /\
  (forall n u, name file = Some n -> is_pdf file = true ->
     Set_has (sentFiles w) (JStr n) = false ->
     pub_error (storage_getPublicUrl env (tick w) n) = None ->
     pub_url (storage_getPublicUrl env (tick w) n) = Some u ->
     u <> "" ->
     exists b, In (EvSend (ForFile n) GROUP_JID (notification n u) b)
                  (events_of (body file) w)).
Proof.
  split; [apply is_pdf_spec|]. split; [apply bucket_body_skips|].
  intros n u Hn Hp Hs He Hu Hne.
  destruct (bucket_body_attempts file n u w Hn Hp Hs He Hu Hne) as (b & evs & Ht).
  exists b. rewrite (events_of_trace _ _ _ Ht). simpl. auto.
Qed.

(** C9: in a bucket cycle a failed send is the last call of the cycle: the
    events of the cycle end with that send and the log line of the catch,
    no send failed before it, and the file is not in the set of sent files
    afterwards. The iteration that throws leaves the set as it found it,
    and the entries listed after it are not looked at: the loop ends in
    the world the throw left, whatever follows in the listing. *)
Theorem bucket_send_failure_ends_cycle (w : World) :
  ends_at_failure (exec poll w) (events_of poll w) /\
  (forall pre file post e w1 w2,
     for_of pre body w = (Normal tt, w1) ->
     body file w1 = (Throw e, w2) ->
     for_of (pre ++ file :: post) body w = (Throw e, w2) /\
     sentFiles w2 = sentFiles w1).
Proof.
  split.
  - destruct (bucket_cycle_effect w) as (_ & evs & Ht & _ & _ & _ & _ & _ & Hend).
    now rewrite (events_of_trace _ _ _ Ht).
  - intros pre file post e w1 w2 Hpre Hbody. split.
    + rewrite for_of_app, Hpre. simpl. unfold bind. now rewrite Hbody.
    + eapply bucket_body_throws. eassumption.
Qed.

End BucketCycle.

Lemma bucket_cycle_idempotent_witness :
  Set_has [JStr "a.pdf"] (JStr "a.pdf") = true /\
  forall jid text b,
    ~ In (EvSend (ForFile "a.pdf") jid text b)
         (events_of (pollBucketAndSend stringify_names group
                       (env_with three_files send_ok))
                    (world_with [JStr "a.pdf"] [])).
Proof.
  split; [reflexivity|].
  apply (bucket_cycle_idempotent stringify_names group
           (env_with three_files send_ok) (world_with [JStr "a.pdf"] []) "a.pdf").
  reflexivity.
Defined.

Lemma bucket_scenario_three_files_witness :
  filter is_send
    (events_of (pollBucketAndSend stringify_names group
                  (env_with three_files send_ok))
               (world_with [] []))
  = [ EvSend (ForFile "a.pdf") group (notification "a.pdf" (url_of "a.pdf")) true;
      EvSend (ForFile "b.pdf") group (notification "b.pdf" (url_of "b.pdf")) true ] /\
  sentFiles (exec (pollBucketAndSend stringify_names group
                     (env_with three_files send_ok))
                  (world_with [] []))
  = [JStr "a.pdf"; JStr "b.pdf"].
Proof.
  apply (bucket_scenario_three_files stringify_names group
           (env_with three_files send_ok) (world_with [] []) url_of).
  - reflexivity.
  - reflexivity.
  - intros k n. reflexivity.
  - intros n. discriminate.
  - intros k jid text. eexists. reflexivity.
Defined.

Lemma suffix_filter_case_insensitive_witness :
  is_pdf {| name := Some "REPORT.PDF" |} = true /\
  exists b,
    In (EvSend (ForFile "REPORT.PDF") group
          (notification "REPORT.PDF" (url_of "REPORT.PDF")) b)
       (events_of (bucket_body stringify_names group (env_with [] send_ok)
                     {| name := Some "REPORT.PDF" |})
                  (world_with [] [])).
Proof.
  split; [reflexivity|].
  apply (suffix_filter_case_insensitive stringify_names group
           (env_with [] send_ok) {| name := Some "REPORT.PDF" |} (world_with [] [])).
  - reflexivity.
  - reflexivity.
  - reflexivity.
  - reflexivity.
  - reflexivity.
  - discriminate.
Defined.

Lemma bucket_send_failure_ends_cycle_witness :
  exists evs1 n e,
    ForFile "a.pdf" = ForFile n /\
    events_of (pollBucketAndSend stringify_names group
                 (env_with three_files send_down))
              (world_with [] [])
    = evs1 ++ [EvSend (ForFile "a.pdf") group
                 (notification "a.pdf" (url_of "a.pdf")) false;
               EvConsole (PollBucketFailed e)] /\
    no_failed_send evs1 /\
    Set_has (sentFiles (exec (pollBucketAndSend stringify_names group
                                (env_with three_files send_down))
                             (world_with [] [])))
            (JStr n) = false.
Proof.
  apply (bucket_send_failure_ends_cycle stringify_names group
           (env_with three_files send_down) (world_with [] [])).
  vm_compute. auto.
Defined.

(** ** The outbox cycle *)

Section OutboxCycle.

Variable GROUP_JID : string.
Variable env : Env.

Local Notation body := (outbox_body GROUP_JID env).
Local Notation poll := (pollOutboxAndSend GROUP_JID env).

(** The four ways one iteration can go. *)
Lemma outbox_body_cases (row : OutboxRow) (w : World) :
  let to := or_else (row_to row) GROUP_JID in
  let message := or_else (row_message row) "" in
  (message = "" /\ body row w = (Normal tt, w)) \/
  (message <> "" /\ exists e,
     sock_sendMessage env (tick w) to message = Throw e /\
     body row w = (Throw e, after_failed_send (ForRow (row_id row)) to message w)) \/
  (message <> "" /\ exists res,
     sock_sendMessage env (tick w) to message = Normal res /\
     outbox_update env (S (tick w)) = Applied /\
     body row w = (Normal tt,
                   after_sent_row (row_id row) to message
                     (Date_toISOString env (S (tick w)))
                     (or_null (msg_id res)) w)) \/
  (message <> "" /\ exists res,
     sock_sendMessage env (tick w) to message = Normal res /\
     outbox_update env (S (tick w)) = NotApplied /\
     body row w = (Normal tt,
                   after_lost_update (row_id row) to message
                     (Date_toISOString env (S (tick w)))
                     (or_null (msg_id res)) w)).
Proof.
  intros to message. unfold outbox_body. fold to message.
  destruct (message =? "")%string eqn:Hm.
  - left. apply String.eqb_eq in Hm. auto.
  - right. apply String.eqb_neq in Hm. unfold_ops. simpl.
    destruct (sock_sendMessage env (tick w) to message) as [res|e] eqn:Hs.
    + right. simpl.
      destruct (outbox_update env (S (tick w))) eqn:Hu; simpl.
      * left. split; [exact Hm|]. exists res.
        split; [reflexivity|]. split; [reflexivity|].
        unfold after_sent_row. simpl. rewrite <- app_assoc. reflexivity.
      * right. split; [exact Hm|]. exists res.
        split; [reflexivity|]. split; [reflexivity|].
        unfold after_lost_update. simpl. rewrite <- app_assoc. reflexivity.
    + left. split; [exact Hm|]. exists e. auto.
Qed.

Lemma apply_updates_app (evs1 evs2 : list Event) (t : list OutboxRow) :
  apply_updates (evs1 ++ evs2) t = apply_updates evs2 (apply_updates evs1 t).
Proof. apply fold_left_app. Qed.

Lemma outbox_effect_refl (batch : list OutboxRow) (w : World) :
  outbox_effect GROUP_JID batch w w [].
Proof.
  unfold outbox_effect. simpl. rewrite app_nil_r.
  repeat split; intros; contradiction.
Qed.

Lemma outbox_effect_trans (b1 b2 : list OutboxRow) (w1 w2 w3 : World)
    (evs1 evs2 : list Event) :
  outbox_effect GROUP_JID b1 w1 w2 evs1 ->
  outbox_effect GROUP_JID b2 w2 w3 evs2 ->
  outbox_effect GROUP_JID (b1 ++ b2) w1 w3 (evs1 ++ evs2).
Proof.
  intros (Ht1 & Hl1 & Ho1 & Hs1 & Hu1 & Hk1) (Ht2 & Hl2 & Ho2 & Hs2 & Hu2 & Hk2).
  unfold outbox_effect.
  split; [rewrite Ht2, Ht1; symmetry; apply app_assoc|].
  split; [congruence|].
  split; [rewrite Ho2, Ho1; symmetry; apply apply_updates_app|].
  split.
  { intros c jid text b Hin. apply in_app_or in Hin as [Hin | Hin].
    - destruct (Hs1 _ _ _ _ Hin) as (row & Hr & H). exists row.
      split; [apply in_or_app; auto | exact H].
    - destruct (Hs2 _ _ _ _ Hin) as (row & Hr & H). exists row.
      split; [apply in_or_app; auto | exact H]. }
  split.
  { intros i now rc Hin. apply in_app_or in Hin as [Hin | Hin].
    - destruct (Hu1 _ _ _ Hin) as (jid & text & H).
      exists jid, text. apply in_or_app; auto.
    - destruct (Hu2 _ _ _ Hin) as (jid & text & H).
      exists jid, text. apply in_or_app; auto. }
  intros i jid text Hin. apply in_app_or in Hin as [Hin | Hin].
  - destruct (Hk1 _ _ _ Hin) as (now & rc & [H | H]);
      exists now, rc; [left | right]; apply in_or_app; auto.
  - destruct (Hk2 _ _ _ Hin) as (now & rc & [H | H]);
      exists now, rc; [left | right]; apply in_or_app; auto.
Qed.

Lemma outbox_body_effect (row : OutboxRow) (w : World) :
  exists evs,
    outbox_effect GROUP_JID [row] w (snd (body row w)) evs /\
    match fst (body row w) with
    | Normal _ => no_failed_send evs
    | Throw e => exists c jid text, evs = [EvSend c jid text false]
    end.
Proof.
  destruct (outbox_body_cases row w)
    as [[Hm ->] | [(Hm & e & Hs & ->)
                  | [(Hm & res & Hs & Hu & ->) | (Hm & res & Hs & Hu & ->)]]];
    simpl.
  - exists []. split; [apply outbox_effect_refl | in_events].
  - exists [EvSend (ForRow (row_id row)) (or_else (row_to row) GROUP_JID)
              (or_else (row_message row) "") false].
    split; [|eauto].
    unfold outbox_effect. simpl.
    split; [reflexivity|]. split; [reflexivity|]. split; [reflexivity|].
    split; [in_events; eexists; eauto 6|]. split; in_events.
  - exists [EvSend (ForRow (row_id row)) (or_else (row_to row) GROUP_JID)
              (or_else (row_message row) "") true;
            EvUpdate (row_id row) (Date_toISOString env (S (tick w)))
              (or_null (msg_id res))].
    split; [|in_events].
    unfold outbox_effect. simpl.
    split; [reflexivity|]. split; [reflexivity|]. split; [reflexivity|].
    split; [in_events; eexists; eauto 6|].
    split; in_events; eauto 6.
  - exists [EvSend (ForRow (row_id row)) (or_else (row_to row) GROUP_JID)
              (or_else (row_message row) "") true;
            EvUpdateLost (row_id row) (Date_toISOString env (S (tick w)))
              (or_null (msg_id res))].
    split; [|in_events].
    unfold outbox_effect. simpl.
    split; [reflexivity|]. split; [reflexivity|]. split; [reflexivity|].
    split; [in_events; eexists; eauto 6|].
    split; in_events; eauto 6.
Qed.

Lemma outbox_loop_effect (batch : list OutboxRow) :
  forall w, exists evs,
    outbox_effect GROUP_JID batch w (snd (for_of batch body w)) evs /\
    match fst (for_of batch body w) with
    | Normal _ => no_failed_send evs
    | Throw e =>
      exists evs1 c jid text,
        evs = evs1 ++ [EvSend c jid text false] /\ no_failed_send evs1
    end.
Proof.
  induction batch as [|x rest IH]; intros w.
  - exists []. split; [apply outbox_effect_refl | in_events].
  - destruct (outbox_body_effect x w) as (evs1 & He1 & Hc1).
    simpl. unfold bind.
    destruct (body x w) as [[[]|e] w1]; simpl in *.
    + destruct (IH w1) as (evs2 & He2 & Hc2).
      exists (evs1 ++ evs2). split.
      * apply (outbox_effect_trans [x] rest w w1 _ evs1 evs2 He1 He2).
      * destruct (fst (for_of rest body w1)).
        -- intros c jid text Hin. apply in_app_or in Hin as [Hin | Hin].
           ++ exact (Hc1 _ _ _ Hin).
           ++ exact (Hc2 _ _ _ Hin).
        -- destruct Hc2 as (evs3 & c & jid & text & -> & Hno).
           exists (evs1 ++ evs3), c, jid, text. split; [apply app_assoc|].
           intros c' jid' text' Hin. apply in_app_or in Hin as [Hin | Hin].
           ++ exact (Hc1 _ _ _ Hin).
           ++ exact (Hno _ _ _ Hin).
    + exists evs1. split.
      * pose proof (outbox_effect_trans [x] rest w w1 w1 evs1 [] He1
                      (outbox_effect_refl rest w1)) as H.
        now rewrite app_nil_r in H.
      * destruct Hc1 as (c & jid & text & ->).
        exists [], c, jid, text. split; [reflexivity | in_events].
Qed.

Lemma events_between_step (w w1 w2 : World) (a b : list Event) :
  trace w1 = trace w ++ a -> trace w2 = trace w1 ++ b ->
  events_between w w2 = a ++ events_between w1 w2.
Proof.
  intros H1 H2. rewrite (events_between_trace w1 w2 b H2).
  apply events_between_trace. rewrite H2, H1. symmetry. apply app_assoc.
Qed.

(** A row with a message is attempted unless the send of a row before it
    in the batch failed. *)
Lemma outbox_loop_attempts (pre : list OutboxRow) :
  forall w row post, or_else (row_message row) "" <> "" ->
  (exists b, In (EvSend (ForRow (row_id row)) (or_else (row_to row) GROUP_JID)
                   (or_else (row_message row) "") b)
                (events_between w (snd (for_of (pre ++ row :: post) body w)))) \/
  (exists x jid text, In x pre /\
     In (EvSend (ForRow (row_id x)) jid text false)
        (events_between w (snd (for_of (pre ++ row :: post) body w)))).
Proof.
  induction pre as [|x pre IH]; intros w row post Hmsg; simpl; unfold bind.
  - left.
    destruct (outbox_body_cases row w)
      as [[Hm E] | [(Hm & e & Hs & E)
                   | [(Hm & res & Hs & Hu & E) | (Hm & res & Hs & Hu & E)]]];
      rewrite E; simpl; [contradiction | | |].
    + exists false. erewrite events_between_trace by reflexivity. simpl. auto.
    + exists true.
      match goal with |- context [for_of post _ ?w1] =>
        destruct (outbox_loop_effect post w1) as (evs2 & (Ht2 & _) & _);
        erewrite (events_between_step w w1) by (try exact Ht2; reflexivity)
      end. simpl. auto.
    + exists true.
      match goal with |- context [for_of post _ ?w1] =>
        destruct (outbox_loop_effect post w1) as (evs2 & (Ht2 & _) & _);
        erewrite (events_between_step w w1) by (try exact Ht2; reflexivity)
      end. simpl. auto.
  - destruct (outbox_body_cases x w)
      as [[Hm E] | [(Hm & e & Hs & E)
                   | [(Hm & res & Hs & Hu & E) | (Hm & res & Hs & Hu & E)]]];
      rewrite E; simpl.
    + destruct (IH w row post Hmsg) as [Hatt | (y & jid & text & Hy & Hf)];
        [left; exact Hatt | right; exists y, jid, text; auto].
    + right. exists x, (or_else (row_to x) GROUP_JID), (or_else (row_message x) "").
      split; [auto|]. erewrite events_between_trace by reflexivity. simpl. auto.
    + match goal with |- context [for_of _ _ ?w1] =>
        destruct (outbox_loop_effect (pre ++ row :: post) w1) as (evs2 & (Ht2 & _) & _);
        erewrite (events_between_step w w1) by (try exact Ht2; reflexivity);
        destruct (IH w1 row post Hmsg) as [(b & Hb) | (y & jid & text & Hy & Hf)]
      end.
      * left. exists b. apply in_or_app. auto.
      * right. exists y, jid, text. split; [auto|]. apply in_or_app. auto.
    + match goal with |- context [for_of _ _ ?w1] =>
        destruct (outbox_loop_effect (pre ++ row :: post) w1) as (evs2 & (Ht2 & _) & _);
        erewrite (events_between_step w w1) by (try exact Ht2; reflexivity);
        destruct (IH w1 row post Hmsg) as [(b & Hb) | (y & jid & text & Hy & Hf)]
      end.
      * left. exists b. apply in_or_app. auto.
      * right. exists y, jid, text. split; [auto|]. apply in_or_app. auto.
Qed.

Lemma outbox_cycle_effect (w : World) :
  fst (poll w) = Normal tt /\
  exists evs,
    outbox_effect GROUP_JID (select_unsent (messages_outbox w)) w (exec poll w) evs /\
    (forall c jid text, In (EvSend c jid text false) evs ->
       exists evs1 e,
         evs = evs1 ++ [EvSend c jid text false; EvConsole (PollOutboxFailed e)] /\
         no_failed_send evs1).
Proof.
  unfold pollOutboxAndSend, exec, try_catch, bind, external, get_outbox. simpl.
  destruct (outbox_select_error env (tick w)) as [err|]; simpl.
  - split; [reflexivity|]. exists []. split; [|in_events].
    apply (outbox_effect_refl _ w).
  - set (w0 := {| sentFiles := sentFiles w;
                  sent_cache_json := sent_cache_json w;
                  messages_outbox := messages_outbox w;
                  tick := S (tick w);
                  trace := trace w |}).
    set (batch := select_unsent (messages_outbox w)).
    destruct (outbox_loop_effect batch w0) as (evs & He & Hc).
    destruct (for_of batch body w0) as [[[]|e] w1]; simpl in *.
    + split; [reflexivity|]. exists evs. split; [exact He|].
      intros c jid text Hin. destruct (Hc _ _ _ Hin).
    + split; [reflexivity|].
      destruct Hc as (evs1 & c & jid & text & -> & Hno).
      exists ((evs1 ++ [EvSend c jid text false])
              ++ [EvConsole (PollOutboxFailed e)]). split.
      * assert (Hlog : outbox_effect GROUP_JID [] w1
                  {| sentFiles := sentFiles w1;
                     sent_cache_json := sent_cache_json w1;
                     messages_outbox := messages_outbox w1;
                     tick := tick w1;
                     trace := trace w1 ++ [EvConsole (PollOutboxFailed e)] |}
                  [EvConsole (PollOutboxFailed e)]).
        { unfold outbox_effect. simpl.
          split; [reflexivity|]. split; [reflexivity|]. split; [reflexivity|].
          split; [in_events|]. split; in_events. }
        pose proof (outbox_effect_trans batch [] w0 w1 _ _ _ He Hlog) as H.
        now rewrite app_nil_r in H.
      * intros c' jid' text' Hin. rewrite <- app_assoc in Hin.
        apply in_app_or in Hin as [Hin | Hin]; [destruct (Hno _ _ _ Hin)|].
        simpl in Hin. in_events. exists evs1, e.
        rewrite <- app_assoc. auto.
Qed.

Lemma outbox_cycle_attempts (w : World) (pre post : list OutboxRow)
    (row : OutboxRow) :
  outbox_select_error env (tick w) = None ->
  select_unsent (messages_outbox w) = pre ++ row :: post ->
  or_else (row_message row) "" <> "" ->
  (exists b, In (EvSend (ForRow (row_id row)) (or_else (row_to row) GROUP_JID)
                   (or_else (row_message row) "") b)
                (events_of poll w)) \/
  (exists x jid text, In x pre /\
     In (EvSend (ForRow (row_id x)) jid text false) (events_of poll w)).
Proof.
  intros Herr Hsel Hmsg.
  unfold events_of, pollOutboxAndSend, exec, try_catch, bind, external, get_outbox.
  simpl. rewrite Herr. simpl. rewrite Hsel.
  set (w0 := {| sentFiles := sentFiles w;
                sent_cache_json := sent_cache_json w;
                messages_outbox := messages_outbox w;
                tick := S (tick w);
                trace := trace w |}).
  pose proof (outbox_loop_attempts pre w0 row post Hmsg) as Hatt.
  destruct (outbox_loop_effect (pre ++ row :: post) w0) as (evs & (Ht & _) & _).
  rewrite (events_between_trace w0 _ _ Ht) in Hatt.
  destruct (for_of (pre ++ row :: post) body w0) as [[[]|e] w1]; simpl in *.
  - now rewrite (events_between_trace w w1 evs Ht).
  - rewrite (events_between_trace w _ (evs ++ [EvConsole (PollOutboxFailed e)]))
      by (simpl; rewrite Ht; symmetry; apply app_assoc).
    destruct Hatt as [(b & Hb) | (x & jid & text & Hx & Hb)].
    + left. exists b. apply in_or_app. auto.
    + right. exists x, jid, text. split; [exact Hx|]. apply in_or_app. auto.
Qed.
End OutboxCycle.

(** ** The table under updates *)

Lemma firstn_In {A} (n : nat) (l : list A) (x : A) :
  In x (firstn n l) -> In x l.
Proof.
  revert n. induction l as [|y l IH]; intros n H.
  - rewrite firstn_nil in H. destruct H.
  - destruct n as [|n]; simpl in H; [destruct H|].
    destruct H as [-> | H]; [left; reflexivity | right; eauto].
Qed.

Lemma mark_sent_ages (id : Z) (now : string) (receipt : option string) :
  ages (mark_sent id now receipt).
Proof.
  intros x. unfold mark_sent. destruct (row_id x =? id)%Z; simpl.
  - split; [reflexivity | discriminate].
  - auto.
Qed.

Lemma mark_by_ages (ev : Event) : ages (fun r => mark_by r ev).
Proof.
  destruct ev; simpl; try (intros x; auto; fail). apply mark_sent_ages.
Qed.

Lemma marks_ages (evs : list Event) : ages (marks evs).
Proof.
  unfold marks. induction evs as [|ev evs IH]; intros x; simpl; [auto|].
  destruct (IH (mark_by x ev)) as [Hid Hun].
  destruct (mark_by_ages ev x) as [Hid' Hun'].
  split; [congruence | auto].
Qed.

Lemma apply_updates_map (evs : list Event) :
  forall t, apply_updates evs t = map (marks evs) t.
Proof.
  unfold apply_updates, marks.
  induction evs as [|ev evs IH]; intros t; simpl.
  - symmetry. apply map_id.
  - rewrite IH. destruct ev; simpl; try reflexivity.
    unfold update_eq_id. now rewrite map_map.
Qed.

Lemma marks_untouched (evs : list Event) :
  forall r, (forall now receipt, ~ In (EvUpdate (row_id r) now receipt) evs) ->
  marks evs r = r.
Proof.
  unfold marks. induction evs as [|ev evs IH]; intros r H; simpl; [reflexivity|].
  assert (Hev : mark_by r ev = r).
  { destruct ev as [| id now rc | |]; simpl; try reflexivity.
    unfold mark_sent. destruct (row_id r =? id)%Z eqn:E; [|reflexivity].
    apply Z.eqb_eq in E. subst id. exfalso. apply (H now rc). simpl. auto. }
  rewrite Hev. apply IH. intros now rc Hin. apply (H now rc). simpl. auto.
Qed.

Lemma marks_marked (evs : list Event) :
  forall r now receipt, In (EvUpdate (row_id r) now receipt) evs ->
  is_unsent (marks evs r) = false.
Proof.
  unfold marks. induction evs as [|ev evs IH]; intros r now rc Hin; [destruct Hin|].
  simpl. destruct Hin as [-> | Hin].
  - simpl. unfold mark_sent. rewrite Z.eqb_refl.
    match goal with |- is_unsent (fold_left mark_by evs ?x) = false =>
      destruct (is_unsent (fold_left mark_by evs x)) eqn:E; [|reflexivity];
      apply (marks_ages evs x) in E; discriminate E
    end.
  - apply (IH (mark_by r ev) now rc).
    destruct (mark_by_ages ev r) as [-> _]. exact Hin.
Qed.

Lemma map_ages_ids (f : OutboxRow -> OutboxRow) (t : list OutboxRow) :
  ages f -> map row_id (map f t) = map row_id t.
Proof.
  intros Hf. rewrite map_map. apply map_ext. intros x. apply Hf.
Qed.

Lemma settled_ages (f : OutboxRow -> OutboxRow) (id : Z) (t : list OutboxRow) :
  ages f -> settled id t -> settled id (map f t).
Proof.
  intros Hf Hs r Hin Hid. apply in_map_iff in Hin as (x & <- & Hx).
  destruct (Hf x) as [Hi Hu]. rewrite Hi in Hid.
  specialize (Hs x Hx Hid).
  destruct (is_unsent (f x)); [|reflexivity]. rewrite Hu in Hs; auto.
Qed.

Lemma settled_not_selected (id : Z) (t : list OutboxRow) :
  settled id t -> forall r, In r (select_unsent t) -> row_id r <> id.
Proof.
  intros Hs r Hin Hid. unfold select_unsent in Hin.
  apply firstn_In in Hin. apply filter_In in Hin as [Hin Hun].
  rewrite (Hs r Hin Hid) in Hun. discriminate.
Qed.

Lemma selected_is_unsent (t : list OutboxRow) (r : OutboxRow) :
  In r (select_unsent t) -> In r t /\ sent_at r = None.
Proof.
  intros Hin. apply firstn_In in Hin. apply filter_In in Hin as [Hin Hun].
  split; [exact Hin|]. unfold is_unsent in Hun.
  destruct (sent_at r); [discriminate | reflexivity].
Qed.

Lemma same_id_same_row (t : list OutboxRow) :
  NoDup (map row_id t) -> forall a b, In a t -> In b t ->
  row_id a = row_id b -> a = b.
Proof.
  induction t as [|x t IH]; intros Hnd a b Ha Hb Hid; [destruct Ha|].
  simpl in Hnd. inversion Hnd as [|? ? Hx Hnd']; subst.
  destruct Ha as [-> | Ha], Hb as [-> | Hb]; trivial.
  - exfalso. apply Hx. rewrite Hid. now apply in_map.
  - exfalso. apply Hx. rewrite <- Hid. now apply in_map.
  - now apply IH.
Qed.

Lemma unsent_ids_NoDup (t : list OutboxRow) :
  NoDup (map row_id t) -> NoDup (map row_id (filter is_unsent t)).
Proof.
  intros H. induction t as [|x t IH]; simpl; [constructor|].
  simpl in H. apply NoDup_cons_iff in H as [Hx Hnd].
  destruct (is_unsent x); simpl; [|auto].
  apply NoDup_cons; [|auto].
  intros Hin. apply Hx. apply in_map_iff in Hin as (y & Hy & Hin).
  apply filter_In in Hin as [Hin _]. rewrite <- Hy. now apply in_map.
Qed.

Lemma firstn_ids_NoDup (n : nat) (t : list OutboxRow) :
  NoDup (map row_id t) -> NoDup (map row_id (firstn n t)).
Proof.
  revert n. induction t as [|x t IH]; intros n H.
  - rewrite firstn_nil. constructor.
  - destruct n as [|n]; simpl; [constructor|].
    simpl in H. apply NoDup_cons_iff in H as [Hx Hnd].
    apply NoDup_cons; [|auto].
    intros Hin. apply Hx. apply in_map_iff in Hin as (y & Hy & Hin).
    apply firstn_In in Hin. rewrite <- Hy. now apply in_map.
Qed.

Lemma select_unsent_NoDup (t : list OutboxRow) :
  NoDup (map row_id t) -> NoDup (map row_id (select_unsent t)).
Proof.
  intros H. unfold select_unsent.
  now apply firstn_ids_NoDup, unsent_ids_NoDup.
Qed.

Lemma in_firstn_middle {A} (x : A) (l1 l2 : list A) (n : nat) :
  List.length l1 < n -> In x (firstn n (l1 ++ x :: l2)).
Proof.
  intros H. rewrite firstn_app. apply in_or_app. right.
  destruct (n - List.length l1) as [|k] eqn:E; [lia|]. simpl. auto.
Qed.

Lemma in_firstn_middle_inv {A} (x : A) (l1 l2 : list A) (n : nat) :
  ~ In x l1 -> In x (firstn n (l1 ++ x :: l2)) -> List.length l1 < n.
Proof.
  intros Hx Hin. destruct (Nat.lt_ge_cases (List.length l1) n) as [H | H]; [exact H|].
  exfalso. rewrite firstn_app in Hin.
  replace (n - List.length l1) with 0 in Hin by lia.
  simpl in Hin. rewrite app_nil_r in Hin.
  apply firstn_In in Hin. contradiction.
Qed.

Lemma filter_ages_length (f : OutboxRow -> OutboxRow) (l : list OutboxRow) :
  ages f ->
  List.length (filter is_unsent (map f l)) <= List.length (filter is_unsent l).
Proof.
  intros Hf. induction l as [|x l IH]; simpl; [lia|].
  destruct (is_unsent (f x)) eqn:E.
  - apply Hf in E. rewrite E. simpl. lia.
  - destruct (is_unsent x); simpl; lia.
Qed.

Lemma firstn_unsent_keeps (n : nat) (f : OutboxRow -> OutboxRow)
    (t : list OutboxRow) (r : OutboxRow) :
  ages f -> NoDup (map row_id t) -> f r = r ->
  In r (firstn n (filter is_unsent t)) ->
  In r (firstn n (filter is_unsent (map f t))).
Proof.
  intros Hf Hnd Hr Hsel.
  assert (Hin : In r t) by (apply firstn_In, filter_In in Hsel; tauto).
  assert (Hun : is_unsent r = true) by (apply firstn_In, filter_In in Hsel; tauto).
  apply in_split in Hin as (l1 & l2 & ->).
  assert (Hnot : ~ In r l1).
  { intros Hin. rewrite map_app in Hnd. simpl in Hnd.
    apply NoDup_remove_2 in Hnd. apply Hnd. apply in_or_app. left.
    now apply in_map. }
  rewrite filter_app in Hsel. simpl in Hsel. rewrite Hun in Hsel.
  apply in_firstn_middle_inv in Hsel.
  - rewrite map_app, filter_app. simpl. rewrite Hr, Hun.
    apply in_firstn_middle.
    pose proof (filter_ages_length f l1 Hf). lia.
  - intros Hin. apply filter_In in Hin as [Hin _]. contradiction.
Qed.

(** Updates never push a row that is left alone out of the selection. *)
Lemma select_unsent_keeps (f : OutboxRow -> OutboxRow) (t : list OutboxRow)
    (r : OutboxRow) :
  ages f -> NoDup (map row_id t) -> f r = r ->
  In r (select_unsent t) -> In r (select_unsent (map f t)).
Proof. apply firstn_unsent_keeps. Qed.

(** ** Cycles one after the other *)

Lemma apply_updates_none (evs : list Event) (t : list OutboxRow) :
  (forall i now receipt, ~ In (EvUpdate i now receipt) evs) ->
  apply_updates evs t = t.
Proof.
  intros H. rewrite apply_updates_map. rewrite <- (map_id t) at 2.
  apply map_ext. intros r. apply marks_untouched. intros now rc. apply H.
Qed.

Section Schedule.

Variable JSON_stringify : JSON -> string.
Variable GROUP_JID : string.
Variable env : Env.

Local Notation pollOutbox := (pollOutboxAndSend GROUP_JID env).
Local Notation outbox_step := (outbox_body GROUP_JID env).
Local Notation run := (run_cycles JSON_stringify GROUP_JID env).

Lemma cycle_table (e : Engine) (w : World) :
  exists evs,
    trace (exec (cycle JSON_stringify GROUP_JID env e) w) = trace w ++ evs /\
    messages_outbox (exec (cycle JSON_stringify GROUP_JID env e) w)
    = apply_updates evs (messages_outbox w) /\
    (forall i jid text b, In (EvSend (ForRow i) jid text b) evs ->
       exists row, In row (messages_outbox w) /\ row_id row = i /\
                   or_else (row_message row) "" <> "") /\
    (forall i now receipt, In (EvUpdate i now receipt) evs ->
       exists jid text, In (EvSend (ForRow i) jid text true) evs).
Proof.
  destruct e; simpl.
  - destruct (bucket_cycle_effect JSON_stringify GROUP_JID env w)
      as (_ & evs & Ht & Ho & Hup & _ & Hs & _).
    exists evs. split; [exact Ht|].
    split; [now rewrite apply_updates_none|].
    split.
    + intros i jid text b Hin. destruct (Hs _ _ _ _ Hin) as (n & Hn & _).
      discriminate Hn.
    + intros i now rc Hin. destruct (Hup _ _ _ Hin).
  - destruct (outbox_cycle_effect GROUP_JID env w)
      as (_ & evs & (Ht & _ & Ho & Hs & Hu & _) & _).
    exists evs. split; [exact Ht|]. split; [exact Ho|]. split; [|exact Hu].
    intros i jid text b Hin.
    destruct (Hs _ _ _ _ Hin) as (row & Hr & Hc & _ & Htext & Hne).
    exists row. injection Hc as ->. subst text.
    apply selected_is_unsent in Hr. tauto.
Qed.

Lemma run_table (es : list Engine) :
  forall w, exists evs,
    trace (run es w) = trace w ++ evs /\
    messages_outbox (run es w) = apply_updates evs (messages_outbox w).
Proof.
  induction es as [|e es IH]; intros w; simpl.
  - exists []. now rewrite app_nil_r.
  - destruct (cycle_table e w) as (evs1 & Ht1 & Ho1 & _).
    destruct (IH (exec (cycle JSON_stringify GROUP_JID env e) w))
      as (evs2 & Ht2 & Ho2).
    exists (evs1 ++ evs2). split.
    + rewrite Ht2, Ht1. symmetry. apply app_assoc.
    + rewrite Ho2, Ho1. symmetry. apply apply_updates_app.
Qed.

Lemma run_settled (es : list Engine) (w : World) (id : Z) :
  settled id (messages_outbox w) -> settled id (messages_outbox (run es w)).
Proof.
  intros H. destruct (run_table es w) as (evs & _ & ->).
  rewrite apply_updates_map. apply settled_ages; [apply marks_ages | exact H].
Qed.

(** A row without a message is left alone by any run of cycles. *)
Lemma run_keeps_silent_row (r : OutboxRow) (es : list Engine) :
  or_else (row_message r) "" = "" ->
  forall w, NoDup (map row_id (messages_outbox w)) -> In r (messages_outbox w) ->
  exists evs,
    trace (run es w) = trace w ++ evs /\
    messages_outbox (run es w) = apply_updates evs (messages_outbox w) /\
    (forall jid text b, ~ In (EvSend (ForRow (row_id r)) jid text b) evs) /\
    (forall now receipt, ~ In (EvUpdate (row_id r) now receipt) evs).
Proof.
  intros Hmsg. induction es as [|e es IH]; intros w Hnd Hin; simpl.
  - exists []. rewrite app_nil_r. repeat split; intros; intros [].
  - destruct (cycle_table e w) as (evs1 & Ht1 & Ho1 & Hs1 & Hu1).
    assert (Hno_send : forall jid text b,
              ~ In (EvSend (ForRow (row_id r)) jid text b) evs1).
    { intros jid text b Hev.
      destruct (Hs1 _ _ _ _ Hev) as (row & Hrow & Hid & Hne).
      assert (row = r) by (eapply same_id_same_row; eauto). subst row.
      contradiction. }
    assert (Hno_upd : forall now rc, ~ In (EvUpdate (row_id r) now rc) evs1).
    { intros now rc Hev. destruct (Hu1 _ _ _ Hev) as (jid & text & Hsend).
      exact (Hno_send _ _ _ Hsend). }
    set (w1 := exec (cycle JSON_stringify GROUP_JID env e) w) in *.
    destruct (IH w1) as (evs2 & Ht2 & Ho2 & Hs2 & Hu2).
    + rewrite Ho1, apply_updates_map, map_ages_ids; [exact Hnd | apply marks_ages].
    + rewrite Ho1, apply_updates_map.
      rewrite <- (marks_untouched evs1 r Hno_upd). now apply in_map.
    + exists (evs1 ++ evs2).
      split; [rewrite Ht2, Ht1; symmetry; apply app_assoc|].
      split; [rewrite Ho2, Ho1; symmetry; apply apply_updates_app|].
      split.
      * intros jid text b Hev. apply in_app_or in Hev as [Hev | Hev].
        -- exact (Hno_send _ _ _ Hev).
        -- exact (Hs2 _ _ _ Hev).
      * intros now rc Hev. apply in_app_or in Hev as [Hev | Hev].
        -- exact (Hno_upd _ _ Hev).
        -- exact (Hu2 _ _ Hev).
Qed.

(** C2 (amended): take a row of the selected batch (the first 50 unsent
    rows) that has a message, and a cycle whose query succeeds. If no send
    to a row before it in the batch fails in that cycle, a send is
    attempted for the row. A delivered send is followed by the update of
    the row, whose outcome the code does not read. As long as no update of
    the row takes effect (no send delivered, or the update lost) the row,
    in a table with distinct ids, is unchanged and is selected again. An
    update that takes effect follows a delivered send and sets [sent_at],
    after which no later cycle selects the row. *)
Theorem outbox_row_retried_until_sent (w : World) (pre post : list OutboxRow)
    (r : OutboxRow) :
  select_unsent (messages_outbox w) = pre ++ r :: post ->
  or_else (row_message r) "" <> "" ->
  outbox_select_error env (tick w) = None ->
  ((forall x jid text, In x pre ->
      ~ In (EvSend (ForRow (row_id x)) jid text false) (events_of pollOutbox w)) ->
   exists b, In (EvSend (ForRow (row_id r)) (or_else (row_to r) GROUP_JID)
                   (or_else (row_message r) "") b)
                (events_of pollOutbox w)) /\
  (forall jid text,
     In (EvSend (ForRow (row_id r)) jid text true) (events_of pollOutbox w) ->
     exists now receipt,
       In (EvUpdate (row_id r) now receipt) (events_of pollOutbox w) \/
       In (EvUpdateLost (row_id r) now receipt) (events_of pollOutbox w)) /\
  (NoDup (map row_id (messages_outbox w)) ->
   (forall now receipt,
      ~ In (EvUpdate (row_id r) now receipt) (events_of pollOutbox w)) ->
   In r (select_unsent (messages_outbox (exec pollOutbox w)))) /\
  ((exists now receipt,
      In (EvUpdate (row_id r) now receipt) (events_of pollOutbox w)) ->
   (exists jid text,
      In (EvSend (ForRow (row_id r)) jid text true) (events_of pollOutbox w)) /\
   settled (row_id r) (messages_outbox (exec pollOutbox w)) /\
   forall es r',
     In r' (select_unsent (messages_outbox (run es (exec pollOutbox w)))) ->
     row_id r' <> row_id r).
Proof.
  intros Hsel Hmsg Herr.
  destruct (outbox_cycle_effect GROUP_JID env w)
    as (_ & evs & (Ht & _ & Ho & _ & Hu & Hk) & _).
  pose proof (events_of_trace pollOutbox w evs Ht) as Hevs.
  split; [|split; [|split]].
  - intros Hclean.
    destruct (outbox_cycle_attempts GROUP_JID env w pre post r Herr Hsel Hmsg)
      as [Hatt | (x & jid & text & Hx & Hfail)]; [exact Hatt|].
    destruct (Hclean x jid text Hx Hfail).
  - rewrite Hevs. intros jid text Hin. exact (Hk _ _ _ Hin).
  - rewrite Hevs. intros Hnd Hnone. rewrite Ho, apply_updates_map.
    apply select_unsent_keeps; trivial.
    + apply marks_ages.
    + now apply marks_untouched.
    + rewrite Hsel. apply in_or_app. right. left. reflexivity.
  - rewrite Hevs. intros (now & rc & Hup).
    split; [exact (Hu _ _ _ Hup)|].
    assert (Hset : settled (row_id r) (messages_outbox (exec pollOutbox w))).
    { rewrite Ho, apply_updates_map. intros x Hx Hid.
      apply in_map_iff in Hx as (y & <- & Hy).
      destruct (marks_ages evs y) as [Hy_id _]. rewrite Hy_id in Hid.
      apply (marks_marked evs y now rc). now rewrite Hid. }
    split; [exact Hset|].
    intros es r' Hr'. eapply settled_not_selected; [|exact Hr'].
    now apply run_settled.
Qed.


(** C10: in a table with distinct ids, a row whose message is absent or
    empty is left alone by every run of cycles: no send and no update is
    made for it, it is still in the table with [sent_at] unset, and if a
    cycle's selection held it once, the selection of every later cycle
    holds it too. *)
Theorem outbox_empty_message_never_sent (w : World) (r : OutboxRow)
    (es : list Engine) :
  NoDup (map row_id (messages_outbox w)) ->
  In r (messages_outbox w) ->
  sent_at r = None ->
  or_else (row_message r) "" = "" ->
  (forall jid text b,
     ~ In (EvSend (ForRow (row_id r)) jid text b) (events_between w (run es w))) /\
  (forall now receipt,
     ~ In (EvUpdate (row_id r) now receipt) (events_between w (run es w))) /\
  (In r (messages_outbox (run es w)) /\ is_unsent r = true) /\
  (In r (select_unsent (messages_outbox w)) ->
   In r (select_unsent (messages_outbox (run es w)))).
Proof.
  intros Hnd Hin Hunset Hmsg.
  destruct (run_keeps_silent_row r es Hmsg w Hnd Hin) as (evs & Ht & Ho & Hs & Hu).
  rewrite (events_between_trace _ _ _ Ht), Ho, apply_updates_map.
  split; [exact Hs|]. split; [exact Hu|].
  pose proof (marks_untouched evs r Hu) as Hsame.
  split.
  - split; [|unfold is_unsent; now rewrite Hunset].
    rewrite <- Hsame. now apply in_map.
  - apply select_unsent_keeps; trivial. apply marks_ages.
Qed.

End Schedule.

Lemma outbox_row_starved_counterexample :
  ~ attempted_every_cycle group (env_with [] send_unless_blocked)
      (exec (pollOutboxAndSend group (env_with [] send_unless_blocked))
            (world_with [] [row1; row2])).
Proof.
  intros H. destruct (H row2) as (jid & text & b & Hin).
  - vm_compute. auto.
  - reflexivity.
  - discriminate.
  - vm_compute in Hin. destruct Hin as [Hin | [Hin | []]]; discriminate Hin.
Qed.

Lemma outbox_row_retried_until_sent_witness :
  (exists b, In (EvSend (ForRow 2) group "yo" b)
                (events_of (pollOutboxAndSend group (env_with [] send_unless_blocked))
                           (world_with [] [row2; row1]))) /\
  In row2 (select_unsent
             (messages_outbox
                (exec (pollOutboxAndSend group (env_losing_updates send_ok))
                      (world_with [] [row2; row1])))).
Proof.
  assert (Hmsg : or_else (row_message row2) "" <> "") by discriminate.
  destruct (outbox_row_retried_until_sent stringify_names group
              (env_with [] send_unless_blocked) (world_with [] [row2; row1])
              [] [row1] row2 eq_refl Hmsg eq_refl) as (Hatt & _).
  destruct (outbox_row_retried_until_sent stringify_names group
              (env_losing_updates send_ok) (world_with [] [row2; row1])
              [] [row1] row2 eq_refl Hmsg eq_refl) as (_ & _ & Hagain & _).
  split.
  - apply Hatt. intros x jid text [].
  - apply Hagain.
    + repeat constructor; simpl; intuition discriminate.
    + intros now rc Hin. vm_compute in Hin.
      repeat destruct Hin as [Hin | Hin]; try discriminate Hin. destruct Hin.
Defined.



Lemma outbox_empty_message_never_sent_witness :
  In row3 (messages_outbox
             (run_cycles stringify_names group (env_with three_files send_ok)
                [Outbox; Bucket; Outbox] (world_with [] [row2; row3]))) /\
  In row3 (select_unsent
             (messages_outbox
                (run_cycles stringify_names group (env_with three_files send_ok)
                   [Outbox; Bucket; Outbox] (world_with [] [row2; row3])))).
Proof.
  destruct (outbox_empty_message_never_sent stringify_names group
              (env_with three_files send_ok) (world_with [] [row2; row3]) row3
              [Outbox; Bucket; Outbox])
    as (_ & _ & (Hin & _) & Hsel).
  - repeat constructor; simpl; intuition discriminate.
  - simpl. auto.
  - reflexivity.
  - reflexivity.
  - split; [exact Hin|]. apply Hsel. clear. vm_compute. right. left. reflexivity.
Defined.

(** ** The connection *)

Section ConnectionFacts.

Import Connection.

Variable loggedOut : Z.
Variable toDataURL : string -> string.
Variable session_setup : nat -> bool.

Local Notation start := (startWhatsApp session_setup).
Local Notation handler := (on_connection_update loggedOut toDataURL session_setup).

(** What the handler does before its [close] branch: it may log, never
    starts anything. *)
Lemma before_close_quiet (k : nat) (u : ConnectionUpdate) (p : Process) :
  exists acts,
    actions (before_close toDataURL k u p) = actions p ++ acts /\
    existsb is_start acts = false /\
    existsb is_scheduling acts = false /\
    starts (before_close toDataURL k u p) = starts p /\
    intervals (before_close toDataURL k u p) = intervals p.
Proof.
  unfold before_close, on_open, on_qr, report.
  destruct (connection u) as [[| |]|]; destruct (qr u) as [code|]; simpl;
    try destruct (code =? "")%string; simpl;
    repeat match goal with
           | |- context [match ?x with _ => _ end] => destruct x; simpl
           end;
    repeat rewrite <- app_assoc;
    first [ exists []; rewrite app_nil_r; repeat split; reflexivity
          | eexists; split; [reflexivity|]; repeat split; reflexivity ].
Qed.

(** C4 (amended): [startWhatsApp] itself starts the two schedulers and
    calls each cycle once, right after it made the socket, while that
    socket is still connecting; the session-open event starts nothing. *)
Theorem schedulers_start_with_socket (p : Process) :
  session_setup (starts p) = true ->
  actions (start p)
  = actions p ++ [CallStart; MakeSocket (List.length (sockets p));
                  SetInterval Bucket (List.length (sockets p));
                  SetInterval Outbox (List.length (sockets p));
                  CallCycle Bucket (List.length (sockets p));
                  CallCycle Outbox (List.length (sockets p))] /\
  intervals (start p)
  = intervals p ++ [(Bucket, List.length (sockets p));
                    (Outbox, List.length (sockets p))] /\
  nth_error (sockets (start p)) (List.length (sockets p))
  = Some {| reported := connecting; openedBrowser := false |} /\
  (forall k u, connection u = Some opened ->
     intervals (handler k u p) = intervals p /\
     exists acts, actions (handler k u p) = actions p ++ acts /\
                  existsb is_scheduling acts = false).
Proof.
  intros Hok. unfold startWhatsApp. rewrite Hok. simpl.
  split; [now rewrite <- app_assoc|]. split; [reflexivity|]. split.
  - rewrite nth_error_app2 by lia. now rewrite Nat.sub_diag.
  - intros k u Hu.
    destruct (before_close_quiet k u p) as (acts & Ha & _ & Hs & _ & Hi).
    unfold on_connection_update, on_close. fold (before_close toDataURL k u p).
    rewrite Hu. split; [exact Hi|]. exists acts. auto.
Qed.

(** C5: on a close event the handler computes the code and, when it is the
    logged-out code, only logs: [startWhatsApp] is not called and no timer
    is added. For every other code it calls [startWhatsApp] at once, with
    nothing between the log line and the call. *)
Theorem close_reconnects_unless_logged_out (k : nat) (u : ConnectionUpdate)
    (p : Process) :
  connection u = Some closed ->
  (close_code (lastDisconnect u) = loggedOut ->
   handler k u p = log [ConsoleClosed loggedOut false] (before_close toDataURL k u p) /\
   starts (handler k u p) = starts p /\
   intervals (handler k u p) = intervals p /\
   exists acts, actions (handler k u p) = actions p ++ acts /\
                existsb is_start acts = false) /\
  (close_code (lastDisconnect u) <> loggedOut ->
   handler k u p
   = start (log [ConsoleClosed (close_code (lastDisconnect u)) true]
              (before_close toDataURL k u p)) /\
   starts (handler k u p) = S (starts p)).
Proof.
  intros Hu.
  destruct (before_close_quiet k u p) as (acts & Ha & Hst & _ & Hn & Hi).
  unfold on_connection_update, on_close. fold (before_close toDataURL k u p).
  rewrite Hu. split.
  - intros Hcode. rewrite Hcode, Z.eqb_refl. simpl.
    split; [reflexivity|]. split; [exact Hn|]. split; [exact Hi|].
    exists (acts ++ [ConsoleClosed loggedOut false]).
    rewrite Ha, <- app_assoc. split; [reflexivity|].
    rewrite existsb_app, Hst. reflexivity.
  - intros Hcode. apply Z.eqb_neq in Hcode. rewrite Hcode. simpl.
    split; [reflexivity|].
    unfold startWhatsApp. simpl.
    destruct (session_setup (starts (before_close toDataURL k u p)));
      simpl; now rewrite Hn.
Qed.

End ConnectionFacts.

Lemma schedulers_before_open_counterexample :
  ~ schedulers_wait_for_open 401 (fun qr => qr) (fun _ => true).
Proof.
  intros H. specialize (H []). vm_compute in H. discriminate H.
Qed.

Lemma schedulers_start_with_socket_witness :
  Connection.actions (Connection.startWhatsApp (fun _ => true) Connection.initial)
  = [Connection.CallStart; Connection.MakeSocket 0;
     Connection.SetInterval Bucket 0; Connection.SetInterval Outbox 0;
     Connection.CallCycle Bucket 0; Connection.CallCycle Outbox 0] /\
  Connection.intervals
    (Connection.on_connection_update 401 (fun qr => qr) (fun _ => true)
       0 session_open
       (Connection.startWhatsApp (fun _ => true) Connection.initial))
  = [(Bucket, 0); (Outbox, 0)].
Proof.
  destruct (schedulers_start_with_socket 401 (fun qr => qr) (fun _ => true)
              Connection.initial eq_refl) as (Hacts & _ & _ & _).
  destruct (schedulers_start_with_socket 401 (fun qr => qr) (fun _ => true)
              (Connection.startWhatsApp (fun _ => true) Connection.initial)
              eq_refl) as (_ & _ & _ & Hopen).
  split; [exact Hacts|].
  exact (proj1 (Hopen 0 session_open eq_refl)).
Defined.

Lemma close_reconnects_unless_logged_out_witness :
  Connection.starts
    (Connection.on_connection_update 401 (fun qr => qr) (fun _ => true)
       0 logged_out_401
       (Connection.startWhatsApp (fun _ => true) Connection.initial)) = 1 /\
  Connection.starts
    (Connection.on_connection_update 401 (fun qr => qr) (fun _ => true)
       0 connection_lost_428
       (Connection.startWhatsApp (fun _ => true) Connection.initial)) = 2.
Proof.
  destruct (close_reconnects_unless_logged_out 401 (fun qr => qr) (fun _ => true)
              0 logged_out_401
              (Connection.startWhatsApp (fun _ => true) Connection.initial)
              eq_refl) as (Hout & _).
  destruct (close_reconnects_unless_logged_out 401 (fun qr => qr) (fun _ => true)
              0 connection_lost_428
              (Connection.startWhatsApp (fun _ => true) Connection.initial)
              eq_refl) as (_ & Hlost).
  split.
  - exact (proj1 (proj2 (Hout eq_refl))).
  - apply Hlost. vm_compute. discriminate.
Defined.

(** ** More on the sent cache *)

Lemma name_set_add (s : JSSet) (n : string) :
  name_set s -> name_set (Set_add s (JStr n)).
Proof.
  intros (names & Hnd & ->). unfold Set_add.
  destruct (Set_has (map JStr names) (JStr n)) eqn:E.
  - exists names. auto.
  - exists (names ++ [n]). split.
    + apply NoDup_app; [exact Hnd | repeat constructor; intros [] |].
      intros x Hx [Heq | []]. subst x.
      assert (H : Set_has (map JStr names) (JStr n) = true)
        by (apply Set_has_JStr; now apply in_map).
      congruence.
    + now rewrite map_app.
Qed.

Lemma name_set_load (JSON_parse : string -> Completion JSON) (text : string)
    (names : list string) :
  JSON_parse text = Normal (JArr (map JStr names)) ->
  name_set (loadSentCache JSON_parse (Contents text)).
Proof.
  intros H. unfold loadSentCache. simpl. rewrite H. simpl.
  assert (G : forall l acc, name_set acc ->
              name_set (fold_left Set_add (map JStr l) acc)).
  { induction l as [|n l IH]; intros acc Hacc; simpl; [exact Hacc|].
    apply IH. now apply name_set_add. }
  apply G. exists []. split; [constructor | reflexivity].
Qed.

Lemma name_set_reload (JSON_parse : string -> Completion JSON) (text : string)
    (s : JSSet) :
  name_set s -> JSON_parse text = Normal (JArr s) ->
  loadSentCache JSON_parse (Contents text) = s.
Proof.
  intros (names & Hnd & ->) H.
  unfold loadSentCache. simpl. rewrite H. simpl.
  now rewrite fold_Set_add_fresh by (trivial; intros ? ? []).
Qed.

Lemma map_JStr_inj (a : list string) :
  forall b, map JStr a = map JStr b -> a = b.
Proof.
  induction a as [|x a IH]; intros [|y b] H; simpl in H;
    try discriminate H; [reflexivity|].
  injection H as -> H. f_equal. now apply IH.
Qed.

Section LedgerFacts.

Variable JSON_stringify : JSON -> string.
Variable GROUP_JID : string.
Variable env : Env.

Local Notation save := (saveSentCache JSON_stringify env).
Local Notation bucket_step := (bucket_body JSON_stringify GROUP_JID env).
Local Notation pollBucket := (pollBucketAndSend JSON_stringify GROUP_JID env).
Local Notation run := (run_cycles JSON_stringify GROUP_JID env).

Lemma saveSentCache_cases (set : JSSet) (w : World) :
  (fs_write_fault env (tick w) = None /\
   save set w
   = (Normal tt,
      {| sentFiles := sentFiles w;
         sent_cache_json := Contents (JSON_stringify (JArr set));
         messages_outbox := messages_outbox w;
         tick := S (tick w);
         trace := trace w |})) \/
  (exists e left_behind,
     fs_write_fault env (tick w) = Some (e, left_behind) /\
     save set w
     = (Normal tt,
        {| sentFiles := sentFiles w;
           sent_cache_json := left_behind;
           messages_outbox := messages_outbox w;
           tick := S (tick w);
           trace := trace w ++ [EvConsole (CouldNotSaveSentCache e)] |})).
Proof.
  unfold saveSentCache. unfold_ops. simpl.
  destruct (fs_write_fault env (tick w)) as [[e left_behind]|]; simpl.
  - right. exists e, left_behind. auto.
  - left. auto.
Qed.

(** X1: [saveSentCache] never throws and never changes the set in memory;
    when the write goes through and [JSON.parse] reads back what
    [JSON.stringify] wrote, [loadSentCache] on the file gives the saved set
    again. *)
Theorem save_then_load_round_trip (JSON_parse : string -> Completion JSON)
    (set : JSSet) (w : World) :
  fst (save set w) = Normal tt /\
  sentFiles (exec (save set) w) = sentFiles w /\
  (name_set set ->
   fs_write_fault env (tick w) = None ->
   JSON_parse (JSON_stringify (JArr set)) = Normal (JArr set) ->
   loadSentCache JSON_parse (sent_cache_json (exec (save set) w)) = set).
Proof.
  unfold exec.
  destruct (saveSentCache_cases set w) as [[Hok ->] | (e & lb & Hf & ->)]; simpl.
  - split; [reflexivity|]. split; [reflexivity|].
    intros Hset _ Hparse. now apply name_set_reload.
  - split; [reflexivity|]. split; [reflexivity|].
    intros _ Hnone. congruence.
Qed.

Lemma subsequence_nil_l {A} (l : list A) : subsequence [] l.
Proof. induction l; constructor; assumption. Qed.

Lemma subsequence_refl {A} (l : list A) : subsequence l l.
Proof. induction l; constructor; assumption. Qed.

Lemma subsequence_app {A} (a1 a2 b1 b2 : list A) :
  subsequence a1 b1 -> subsequence a2 b2 -> subsequence (a1 ++ a2) (b1 ++ b2).
Proof.
  intros H1 H2. induction H1; simpl; try (constructor; assumption).
  exact H2.
Qed.

Lemma subsequence_length {A} (a b : list A) :
  subsequence a b -> List.length a <= List.length b.
Proof. intros H. induction H; simpl; lia. Qed.

Lemma subsequence_In {A} (a b : list A) (x : A) :
  subsequence a b -> In x a -> In x b.
Proof.
  intros H. induction H; simpl; intros Hin; auto.
  destruct Hin; auto.
Qed.

Lemma delivered_names_app (a b : list Event) :
  delivered_names (a ++ b) = delivered_names a ++ delivered_names b.
Proof. apply flat_map_app. Qed.

Lemma attempted_names_app (a b : list Event) :
  attempted_names (a ++ b) = attempted_names a ++ attempted_names b.
Proof. apply flat_map_app. Qed.

Lemma ledger_effect_refl (files : list FileObject) (w : World) :
  ledger_effect JSON_stringify env files w w [].
Proof.
  unfold ledger_effect. simpl. repeat rewrite app_nil_r.
  repeat split; auto. apply subsequence_nil_l.
Qed.

Lemma ledger_effect_quiet (files : list FileObject) (w w' : World)
    (lines : list LogLine) :
  sentFiles w' = sentFiles w ->
  sent_cache_json w' = sent_cache_json w ->
  trace w' = trace w ++ map EvConsole lines ->
  ledger_effect JSON_stringify env files w w' (map EvConsole lines).
Proof.
  intros Hs Hc Ht. unfold ledger_effect, cache_synced.
  assert (Hd : delivered_names (map EvConsole lines) = [])
    by (clear; unfold delivered_names; induction lines; simpl; auto).
  assert (Ha : attempted_names (map EvConsole lines) = [])
    by (clear; unfold attempted_names; induction lines; simpl; auto).
  rewrite Hd, Ha, Hs, Hc. simpl. rewrite app_nil_r.
  repeat split; auto. apply subsequence_nil_l.
Qed.

Lemma ledger_effect_trans (f1 f2 : list FileObject) (w1 w2 w3 : World)
    (evs1 evs2 : list Event) :
  ledger_effect JSON_stringify env f1 w1 w2 evs1 ->
  ledger_effect JSON_stringify env f2 w2 w3 evs2 ->
  ledger_effect JSON_stringify env (f1 ++ f2) w1 w3 (evs1 ++ evs2).
Proof.
  intros (Ht1 & Hs1 & Hn1 & Hc1 & Hq1) (Ht2 & Hs2 & Hn2 & Hc2 & Hq2).
  unfold ledger_effect.
  split; [rewrite Ht2, Ht1; symmetry; apply app_assoc|].
  split; [rewrite Hs2, Hs1, delivered_names_app, map_app; symmetry; apply app_assoc|].
  split; [auto|]. split; [auto|].
  rewrite attempted_names_app. unfold pdf_names. rewrite flat_map_app.
  now apply subsequence_app.
Qed.

Lemma bucket_body_ledger (file : FileObject) (w : World) :
  exists evs,
    ledger_effect JSON_stringify env [file] w (snd (bucket_step file w)) evs.
Proof.
  unfold ledger_effect, pdf_names. simpl. rewrite app_nil_r.
  unfold bucket_body, pdf_name. unfold_ops.
  repeat split_match.
  all: (eexists; split; [trace_eq|]).
  all: simpl; unfold Set_add;
    repeat match goal with
           | H : Set_has _ _ = false |- _ => rewrite H
           end.
  all: (split; [first [reflexivity | symmetry; apply app_nil_r]|]).
  all: (split; [first [tauto
                      | intros Hset; fold (Set_add (sentFiles w) (JStr s));
                        match goal with
                        | H : Set_has ?s0 ?v = false |- _ =>
                          replace (s0 ++ [v]) with (Set_add s0 v)
                            by (unfold Set_add; now rewrite H)
                        end; now apply name_set_add]|]).
  all: (split; [unfold cache_synced, no_write_faults; simpl; intros Hnf Hsync;
                first [ exact Hsync | reflexivity
                      | match goal with
                        | H : fs_write_fault env ?n = Some _ |- _ =>
                          rewrite (Hnf n) in H; discriminate H
                        end ]|]).
  all: try apply subsequence_nil_l.
  all: try apply subsequence_refl.
  all: match goal with
       | H : negb _ = _ |- _ => simpl in H; discriminate H
       end.
Qed.

Lemma bucket_loop_ledger (files : list FileObject) :
  forall w, exists evs,
    ledger_effect JSON_stringify env files w (snd (for_of files bucket_step w)) evs.
Proof.
  induction files as [|file rest IH]; intros w.
  - exists []. apply ledger_effect_refl.
  - destruct (bucket_body_ledger file w) as (evs1 & H1).
    simpl. unfold bind.
    destruct (bucket_step file w) as [[[]|e] w1]; simpl in *.
    + destruct (IH w1) as (evs2 & H2). exists (evs1 ++ evs2).
      apply (ledger_effect_trans [file] rest w w1 _ evs1 evs2 H1 H2).
    + exists evs1.
      pose proof (ledger_effect_trans [file] rest w w1 w1 evs1 [] H1
                    (ledger_effect_refl rest w1)) as H.
      now rewrite app_nil_r in H.
Qed.

Lemma bucket_cycle_ledger (w : World) :
  exists evs,
    ledger_effect JSON_stringify env (listed env w) w (exec pollBucket w) evs.
Proof.
  unfold pollBucketAndSend, exec, try_catch, bind, external, listed. simpl.
  destruct (list_error (storage_list env (tick w))) as [err|]; simpl.
  - exists (map EvConsole [StorageListError err]).
    now apply ledger_effect_quiet.
  - set (w0 := {| sentFiles := sentFiles w;
                  sent_cache_json := sent_cache_json w;
                  messages_outbox := messages_outbox w;
                  tick := S (tick w);
                  trace := trace w |}).
    set (files := match list_data (storage_list env (tick w)) with
                  | Some data => data
                  | None => []
                  end).
    destruct (bucket_loop_ledger files w0) as (evs & H).
    destruct (for_of files bucket_step w0) as [[[]|e] w1]; simpl in *.
    + exists evs. exact H.
    + exists (evs ++ map EvConsole [PollBucketFailed e]).
      rewrite <- (app_nil_r files).
      apply (ledger_effect_trans files [] w0 w1 _ evs _ H).
      now apply ledger_effect_quiet.
Qed.

Lemma outbox_cycle_leaves_cache (w : World) :
  sentFiles (exec (pollOutboxAndSend GROUP_JID env) w) = sentFiles w /\
  sent_cache_json (exec (pollOutboxAndSend GROUP_JID env) w) = sent_cache_json w.
Proof.
  assert (Hloop : forall batch w0,
            sentFiles (snd (for_of batch (outbox_body GROUP_JID env) w0))
            = sentFiles w0 /\
            sent_cache_json (snd (for_of batch (outbox_body GROUP_JID env) w0))
            = sent_cache_json w0).
  { induction batch as [|x rest IH]; intros w0; simpl; [auto|]. unfold bind.
    destruct (outbox_body_cases GROUP_JID env x w0)
      as [[_ E] | [(_ & e & _ & E)
                  | [(_ & res & _ & _ & E) | (_ & res & _ & _ & E)]]];
      rewrite E; simpl; auto.
    - destruct (IH (after_sent_row (row_id x) (or_else (row_to x) GROUP_JID)
                      (or_else (row_message x) "")
                      (Date_toISOString env (S (tick w0)))
                      (or_null (msg_id res)) w0)) as [-> ->]. auto.
    - destruct (IH (after_lost_update (row_id x) (or_else (row_to x) GROUP_JID)
                      (or_else (row_message x) "")
                      (Date_toISOString env (S (tick w0)))
                      (or_null (msg_id res)) w0)) as [-> ->]. auto. }
  unfold pollOutboxAndSend, exec, try_catch, bind, external, get_outbox. simpl.
  destruct (outbox_select_error env (tick w)); simpl; [auto|].
  match goal with
  | |- context [for_of ?b ?f ?w0] =>
    destruct (Hloop b w0) as [H1 H2]; destruct (for_of b f w0) as [[[]|e] w1]
  end; simpl in *; auto.
Qed.

Lemma run_keeps_cache (es : list Engine) :
  forall w,
    (name_set (sentFiles w) -> name_set (sentFiles (run es w))) /\
    (no_write_faults env -> cache_synced JSON_stringify w ->
     cache_synced JSON_stringify (run es w)).
Proof.
  induction es as [|e es IH]; intros w; simpl; [auto|].
  destruct (IH (exec (cycle JSON_stringify GROUP_JID env e) w)) as [Hn Hc].
  destruct e; simpl in *.
  - destruct (bucket_cycle_ledger w) as (evs & _ & _ & Hn1 & Hc1 & _). auto.
  - destruct (outbox_cycle_leaves_cache w) as [Hs Hf].
    unfold cache_synced in *. rewrite Hs, Hf in *. auto.
Qed.

(** X2: a bucket cycle adds to the set of sent files exactly the names of
    its delivered sends, in the order they were delivered: nothing is
    recorded for a send that failed or was never made, and every delivered
    name is recorded. *)
Theorem bucket_cycle_records_delivered (w : World) :
  sentFiles (exec pollBucket w)
  = sentFiles w ++ map JStr (delivered_names (events_of pollBucket w)).
Proof.
  destruct (bucket_cycle_ledger w) as (evs & Ht & Hs & _).
  now rewrite (events_of_trace _ _ _ Ht).
Qed.

(** X3: the files a bucket cycle attempts to send are, in this order, part
    of the listed names that pass the suffix test: the cycle sends in
    listing order, and makes at most one attempt per listed entry. *)
Theorem bucket_cycle_sends_in_listing_order (w : World) :
  subsequence (attempted_names (events_of pollBucket w))
              (pdf_names (listed env w)) /\
  List.length (attempted_names (events_of pollBucket w))
  <= List.length (listed env w).
Proof.
  destruct (bucket_cycle_ledger w) as (evs & Ht & _ & _ & _ & Hq).
  rewrite (events_of_trace _ _ _ Ht). split; [exact Hq|].
  apply subsequence_length in Hq.
  assert (Hlen : forall files, List.length (pdf_names files) <= List.length files).
  { induction files as [|f files IH]; simpl; [lia|].
    rewrite length_app. unfold pdf_name.
    destruct (name f); [destruct (is_pdf f)|]; simpl; lia. }
  specialize (Hlen (listed env w)). lia.
Qed.

(** X4: when the set in memory holds distinct names, one bucket cycle
    delivers no name twice, even if the listing repeats an entry, and
    delivers no name that was in the set before. *)
Theorem bucket_cycle_delivers_once (w : World) :
  name_set (sentFiles w) ->
  NoDup (delivered_names (events_of pollBucket w)) /\
  (forall n, In n (delivered_names (events_of pollBucket w)) ->
     Set_has (sentFiles w) (JStr n) = false).
Proof.
  intros Hset.
  destruct (bucket_cycle_ledger w) as (evs & Ht & Hs & Hn & _).
  rewrite (events_of_trace _ _ _ Ht).
  destruct (Hn Hset) as (names' & Hnd' & Hnames').
  destruct Hset as (names & Hnd & Hnames).
  rewrite Hs, Hnames, <- map_app in Hnames'.
  apply map_JStr_inj in Hnames'.
  rewrite <- Hnames' in Hnd'. split.
  - now apply NoDup_app_remove_l in Hnd'.
  - intros n Hin. destruct (Set_has (sentFiles w) (JStr n)) eqn:E; [|reflexivity].
    apply Set_has_JStr in E. rewrite Hnames in E.
    apply in_map_iff in E as (m & Hm & Hin'). injection Hm as ->.
    exfalso. revert Hnd' Hin Hin'. clear. intros Hnd Hd Hn.
    induction names as [|x names IH]; [destruct Hn|].
    simpl in Hnd. apply NoDup_cons_iff in Hnd as [Hx Hnd].
    destruct Hn as [-> | Hn]; [|auto].
    apply Hx. apply in_or_app. auto.
Qed.

(** X5: write-through and restart. From a world whose set holds distinct
    names and whose file mirrors the set, after any run of cycles in which
    no write fails the file still mirrors the set; so when [JSON.parse]
    reads back what [JSON.stringify] wrote, [loadSentCache] on that file
    gives exactly the set the process had in memory. *)
Theorem sent_cache_survives_restart (JSON_parse : string -> Completion JSON)
    (es : list Engine) (w : World) :
  name_set (sentFiles w) ->
  cache_synced JSON_stringify w ->
  no_write_faults env ->
  JSON_parse (JSON_stringify (JArr (sentFiles (run es w))))
  = Normal (JArr (sentFiles (run es w))) ->
  cache_synced JSON_stringify (run es w) /\
  loadSentCache JSON_parse (sent_cache_json (run es w)) = sentFiles (run es w).
Proof.
  intros Hset Hsync Hnf Hparse.
  destruct (run_keeps_cache es w) as [Hn Hc].
  specialize (Hn Hset). specialize (Hc Hnf Hsync).
  split; [exact Hc|]. rewrite Hc. now apply name_set_reload.
Qed.

Lemma bucket_body_records (file : FileObject) (n : string) (w w1 : World) :
  name file = Some n -> is_pdf file = true -> url_resolves env n ->
  bucket_step file w = (Normal tt, w1) ->
  Set_has (sentFiles w1) (JStr n) = true.
Proof.
  intros Hn Hp Hurl. destruct (Hurl (tick w)) as (He & u & Hu & Hne).
  apply String.eqb_neq in Hne.
  unfold bucket_body. rewrite Hn, Hp. unfold_ops. simpl.
  destruct (Set_has (sentFiles w) (JStr n)) eqn:Hs.
  - intros H. injection H as <-. exact Hs.
  - rewrite He, Hu. simpl. rewrite Hne. simpl.
    destruct (sock_sendMessage env (S (tick w)) GROUP_JID (notification n u));
      simpl; [|discriminate].
    destruct (fs_write_fault env (S (S (tick w)))) as [[e lb]|]; simpl;
      intros H; injection H as <-; simpl;
      rewrite Set_add_has; simpl; rewrite String.eqb_refl; apply orb_true_r.
Qed.

Lemma bucket_loop_records (files : list FileObject) :
  forall w w', for_of files bucket_step w = (Normal tt, w') ->
  forall file n, In file files -> name file = Some n -> is_pdf file = true ->
  url_resolves env n -> Set_has (sentFiles w') (JStr n) = true.
Proof.
  induction files as [|x rest IH]; intros w w' Hrun file n Hin Hn Hp Hurl;
    [destruct Hin|].
  simpl in Hrun. unfold bind in Hrun.
  destruct (bucket_step x w) as [[[]|e] w1] eqn:E; [|discriminate Hrun].
  destruct Hin as [-> | Hin].
  - pose proof (bucket_body_records file n w w1 Hn Hp Hurl E) as Hhas.
    destruct (bucket_loop_effect JSON_stringify GROUP_JID env rest w1)
      as (evs & _ & _ & _ & Hg & _).
    rewrite Hrun in Hg. simpl in Hg. now apply Hg.
  - eapply IH; eassumption.
Qed.

(** X21: a bucket cycle is cut short only by a failed send. When no send
    of the cycle fails, every listed entry that passes the suffix test and
    whose public URL resolves is in the set of sent files when the cycle
    ends: it was there before, or it has just been delivered. *)
Theorem bucket_cycle_records_every_pdf (w : World) (file : FileObject) (n : string) :
  In file (listed env w) ->
  name file = Some n -> is_pdf file = true ->
  url_resolves env n ->
  no_failed_send (events_of pollBucket w) ->
  Set_has (sentFiles (exec pollBucket w)) (JStr n) = true.
Proof.
  intros Hin Hn Hp Hurl Hok.
  unfold events_of in Hok. revert Hin Hok.
  unfold pollBucketAndSend, exec, try_catch, bind, external, listed. simpl.
  destruct (list_error (storage_list env (tick w))) as [err|]; [intros []|].
  set (w0 := {| sentFiles := sentFiles w;
                sent_cache_json := sent_cache_json w;
                messages_outbox := messages_outbox w;
                tick := S (tick w);
                trace := trace w |}).
  set (files := match list_data (storage_list env (tick w)) with
                | Some data => data
                | None => []
                end).
  intros Hin Hok.
  destruct (bucket_loop_effect JSON_stringify GROUP_JID env files w0)
    as (evs & Ht & _ & _ & _ & _ & _ & Hc).
  destruct (for_of files bucket_step w0) as [[[]|e] w1] eqn:E; simpl in *.
  - eapply bucket_loop_records; eassumption.
  - exfalso. destruct Hc as (evs1 & m & text & -> & _).
    rewrite (events_between_trace w _
               ((evs1 ++ [EvSend (ForFile m) GROUP_JID text false])
                ++ [EvConsole (PollBucketFailed e)])) in Hok
      by (simpl; rewrite Ht; symmetry; apply app_assoc).
    apply (Hok (ForFile m) GROUP_JID text).
    apply in_or_app. left. apply in_or_app. right. simpl. auto.
Qed.

End LedgerFacts.

(** ** More on the two cycles *)

Lemma marks_sent_row (evs : list Event) :
  forall r, existsb (updates_id (row_id r)) evs = true ->
  exists now receipt, marks evs r = sent_row r now receipt.
Proof.
  unfold marks. induction evs as [|ev evs IH]; intros r H; [discriminate H|].
  simpl in *.
  destruct (existsb (updates_id (row_id r)) evs) eqn:Hlater.
  - destruct (mark_by_ages ev r) as [Hid _].
    destruct (IH (mark_by r ev)) as (now & rc & Hm); [now rewrite Hid|].
    exists now, rc. rewrite Hm. unfold sent_row. rewrite Hid.
    destruct ev as [| id t o | |]; simpl; try reflexivity.
    unfold mark_sent. destruct (row_id r =? id)%Z; reflexivity.
  - rewrite orb_false_r in H.
    destruct ev as [| id t o | |]; simpl in H; try discriminate H.
    apply Z.eqb_eq in H. subst id. exists t, o.
    assert (Hmark : mark_by r (EvUpdate (row_id r) t o) = sent_row r t o).
    { simpl. unfold mark_sent. now rewrite Z.eqb_refl. }
    rewrite Hmark.
    apply (marks_untouched evs (sent_row r t o)). simpl.
    intros now rc Hin.
    assert (Hex : existsb (updates_id (row_id r)) evs = true).
    { apply existsb_exists. eexists. split; [exact Hin|]. simpl. apply Z.eqb_refl. }
    congruence.
Qed.

Lemma attempted_rows_app (a b : list Event) :
  attempted_rows (a ++ b) = attempted_rows a ++ attempted_rows b.
Proof. apply flat_map_app. Qed.

Section CyclesMore.

Variable JSON_stringify : JSON -> string.
Variable GROUP_JID : string.
Variable env : Env.

Local Notation pollBucket := (pollBucketAndSend JSON_stringify GROUP_JID env).
Local Notation pollOutbox := (pollOutboxAndSend GROUP_JID env).
Local Notation outbox_step := (outbox_body GROUP_JID env).
Local Notation run := (run_cycles JSON_stringify GROUP_JID env).

Lemma outbox_loop_order (batch : list OutboxRow) :
  forall w, exists evs,
    trace (snd (for_of batch outbox_step w)) = trace w ++ evs /\
    subsequence (attempted_rows evs) (map row_id batch).
Proof.
  induction batch as [|x rest IH]; intros w; simpl.
  - exists []. rewrite app_nil_r. split; [reflexivity | constructor].
  - unfold bind.
    destruct (outbox_body_cases GROUP_JID env x w)
      as [[_ E] | [(_ & e & _ & E)
                  | [(_ & res & _ & _ & E) | (_ & res & _ & _ & E)]]];
      rewrite E; simpl.
    + destruct (IH w) as (evs & Ht & Hq). exists evs.
      split; [exact Ht | now constructor].
    + eexists. split; [reflexivity|]. simpl.
      apply subseq_take. apply subsequence_nil_l.
    + match goal with
      | |- context [for_of rest _ ?w1] => destruct (IH w1) as (evs & Ht & Hq)
      end.
      eexists. split.
      * rewrite Ht. simpl. rewrite <- app_assoc. reflexivity.
      * simpl. now apply subseq_take.
    + match goal with
      | |- context [for_of rest _ ?w1] => destruct (IH w1) as (evs & Ht & Hq)
      end.
      eexists. split.
      * rewrite Ht. simpl. rewrite <- app_assoc. reflexivity.
      * simpl. now apply subseq_take.
Qed.

Lemma outbox_cycle_order (w : World) :
  exists evs,
    trace (exec pollOutbox w) = trace w ++ evs /\
    subsequence (attempted_rows evs)
                (map row_id (select_unsent (messages_outbox w))).
Proof.
  unfold pollOutboxAndSend, exec, try_catch, bind, external, get_outbox. simpl.
  destruct (outbox_select_error env (tick w)); simpl.
  - exists []. rewrite app_nil_r. split; [reflexivity | apply subsequence_nil_l].
  - match goal with
    | |- context [for_of ?b _ ?w0] =>
      destruct (outbox_loop_order b w0) as (evs & Ht & Hq);
      destruct (for_of b outbox_step w0) as [[[]|e] w1]
    end; simpl in *.
    + exists evs. auto.
    + exists (evs ++ [EvConsole (PollOutboxFailed e)]). split.
      * rewrite Ht. symmetry. apply app_assoc.
      * rewrite attempted_rows_app. simpl. now rewrite app_nil_r.
Qed.

(** X6: no cycle throws: whatever the collaborators answer, the catch of
    each cycle turns every exception into a log line. *)
Theorem cycles_never_throw (e : Engine) (w : World) :
  fst (cycle JSON_stringify GROUP_JID env e w) = Normal tt.
Proof.
  destruct e; simpl.
  - apply (bucket_cycle_effect JSON_stringify GROUP_JID env w).
  - apply (outbox_cycle_effect GROUP_JID env w).
Qed.

(** X7: the sends of an outbox cycle follow the selected batch: they are
    made in batch order, at most one per selected row and so at most 50 per
    cycle; each goes to the row's [to], or to the group when [to] is absent
    or empty, and carries the row's message, which is not empty. *)
Theorem outbox_cycle_sends_follow_batch (w : World) :
  subsequence (attempted_rows (events_of pollOutbox w))
              (map row_id (select_unsent (messages_outbox w))) /\
  List.length (attempted_rows (events_of pollOutbox w)) <= 50 /\
  (forall c jid text b, In (EvSend c jid text b) (events_of pollOutbox w) ->
     exists row, In row (select_unsent (messages_outbox w)) /\
                 c = ForRow (row_id row) /\
                 jid = or_else (row_to row) GROUP_JID /\
                 text = or_else (row_message row) "" /\ text <> "").
Proof.
  destruct (outbox_cycle_order w) as (evs & Ht & Hq).
  destruct (outbox_cycle_effect GROUP_JID env w)
    as (_ & evs' & (Ht' & _ & _ & Hs & _) & _).
  rewrite (events_of_trace _ _ _ Ht). split; [exact Hq|]. split.
  - apply subsequence_length in Hq. rewrite length_map in Hq.
    unfold select_unsent in Hq.
    pose proof (firstn_le_length 50 (filter is_unsent (messages_outbox w))). lia.
  - rewrite Ht' in Ht. apply app_inv_head in Ht. subst evs'. exact Hs.
Qed.

(** X8: the two cycles keep to their own state: a bucket cycle leaves the
    outbox table as it is, and an outbox cycle leaves the set of sent
    files and its file as they are. *)
Theorem cycles_do_not_interfere (w : World) :
  messages_outbox (exec pollBucket w) = messages_outbox w /\
  sentFiles (exec pollOutbox w) = sentFiles w /\
  sent_cache_json (exec pollOutbox w) = sent_cache_json w.
Proof.
  split.
  - destruct (bucket_cycle_effect JSON_stringify GROUP_JID env w)
      as (_ & evs & _ & Ho & _). exact Ho.
  - apply outbox_cycle_leaves_cache.
Qed.

(** X9: in a table with distinct ids, after an outbox cycle whose query
    succeeds, in which no send fails and no update is lost, every row of
    the selected batch that has a message is in the table with [sent_at]
    set and [wa_msg_id] as the update wrote it, its other fields
    unchanged, and no later selection holds it. *)
Theorem outbox_cycle_marks_batch (w : World) (r : OutboxRow) :
  NoDup (map row_id (messages_outbox w)) ->
  outbox_select_error env (tick w) = None ->
  no_failed_send (events_of pollOutbox w) ->
  (forall i now receipt,
     ~ In (EvUpdateLost i now receipt) (events_of pollOutbox w)) ->
  In r (select_unsent (messages_outbox w)) ->
  or_else (row_message r) "" <> "" ->
  (exists now receipt,
     In (sent_row r now receipt) (messages_outbox (exec pollOutbox w))) /\
  settled (row_id r) (messages_outbox (exec pollOutbox w)).
Proof.
  intros Hnd Herr Hok Hkept Hsel Hmsg.
  destruct (outbox_cycle_effect GROUP_JID env w)
    as (_ & evs & (Ht & _ & Ho & _ & _ & Hk) & _).
  pose proof (events_of_trace pollOutbox w evs Ht) as Hevs.
  rewrite Hevs in Hok, Hkept.
  destruct (in_split _ _ Hsel) as (pre & post & Hsplit).
  destruct (outbox_cycle_attempts GROUP_JID env w pre post r Herr Hsplit Hmsg)
    as [(b & Hb) | (x & jid & text & _ & Hfail)];
    rewrite Hevs in *; [|destruct (Hok _ _ _ Hfail)].
  destruct b; [|destruct (Hok _ _ _ Hb)].
  destruct (Hk _ _ _ Hb) as (now & rc & [Hup | Hlost]);
    [|destruct (Hkept _ _ _ Hlost)].
  assert (Hex : existsb (updates_id (row_id r)) evs = true).
  { apply existsb_exists. eexists. split; [exact Hup|]. simpl. apply Z.eqb_refl. }
  rewrite Ho, apply_updates_map. split.
  - destruct (marks_sent_row evs r Hex) as (now' & rc' & Hm).
    exists now', rc'. rewrite <- Hm. apply in_map.
    now apply selected_is_unsent in Hsel.
  - intros x Hx Hid. apply in_map_iff in Hx as (y & <- & Hy).
    destruct (marks_ages evs y) as [Hy_id _]. rewrite Hy_id in Hid.
    apply (marks_marked evs y now rc). now rewrite Hid.
Qed.




(** X11: over any run of cycles the table keeps its rows: their number,
    their order and their ids, recipients and messages do not change; only
    [sent_at] and [wa_msg_id] are ever written, and [sent_at] is never
    unset. *)
Theorem run_keeps_rows (w : World) (es : list Engine) :
  map row_id (messages_outbox (run es w)) = map row_id (messages_outbox w) /\
  map row_to (messages_outbox (run es w)) = map row_to (messages_outbox w) /\
  map row_message (messages_outbox (run es w))
  = map row_message (messages_outbox w) /\
  Forall2 (fun old new => is_unsent old = false -> is_unsent new = false)
          (messages_outbox w) (messages_outbox (run es w)).
Proof.
  destruct (run_table JSON_stringify GROUP_JID env es w) as (evs & _ & ->).
  rewrite apply_updates_map.
  assert (Hkeep : forall evs r,
            row_to (marks evs r) = row_to r /\
            row_message (marks evs r) = row_message r).
  { clear. unfold marks. induction evs as [|ev evs IH]; intros r; simpl; [auto|].
    destruct (IH (mark_by r ev)) as [-> ->].
    destruct ev as [| id t o | |]; simpl; auto.
    unfold mark_sent. destruct (row_id r =? id)%Z; auto. }
  repeat rewrite map_map. split; [|split; [|split]].
  - apply map_ext. intros r. apply marks_ages.
  - apply map_ext. intros r. apply Hkeep.
  - apply map_ext. intros r. apply Hkeep.
  - induction (messages_outbox w) as [|r t IH]; simpl; constructor; [|exact IH].
    intros Hsent. destruct (is_unsent (marks evs r)) eqn:E; [|reflexivity].
    apply (marks_ages evs r) in E. congruence.
Qed.

End CyclesMore.

(** ** The inbox *)

Section InboxFacts.

Import Inbox.

Variable self_id : option string.
Variable insert_outcome : nat -> InsertOutcome.
Variable Date_toISOString : nat -> string.

Local Notation one := (archive_one self_id insert_outcome Date_toISOString).
Local Notation upsert := (on_messages_upsert self_id insert_outcome Date_toISOString).

(** What one iteration does, by the message and the backend's answer. *)
Lemma archive_one_cases (st : Archive) (m : WAMessage) :
  (archivable m = false /\ messages_inbox (one st m) = messages_inbox st /\
   calls (one st m) = calls st) \/
  (archivable m = true /\ calls (one st m) = S (calls st) /\
   ((insert_outcome (calls st) = Stored /\
     warnings (one st m) = warnings st /\
     exists from,
       messages_inbox (one st m)
       = messages_inbox st ++ [{| from_jid := from;
                                  to_jid := or_else self_id "";
                                  message_text := extract_text m;
                                  received_at := Date_toISOString (calls st) |}]) \/
    (insert_outcome (calls st) <> Stored /\
     messages_inbox (one st m) = messages_inbox st))).
Proof.
  unfold archive_one, archive_try, archivable.
  destruct (key m) as [k|]; simpl; [|left; auto].
  destruct (extract_text m =? "")%string eqn:E; simpl; [left; auto|].
  right. split; [reflexivity|].
  destruct (insert_outcome (calls st)) eqn:O; simpl.
  - split; [reflexivity|]. left. split; [reflexivity|]. split; [reflexivity|].
    eexists. reflexivity.
  - split; [reflexivity|]. right. split; [discriminate | reflexivity].
  - split; [reflexivity|]. right. split; [discriminate | reflexivity].
Qed.

Lemma archive_fold (messages : list WAMessage) :
  forall st, exists added,
    messages_inbox (fold_left one messages st) = messages_inbox st ++ added /\
    calls (fold_left one messages st)
    = calls st + List.length (filter archivable messages) /\
    subsequence (map message_text added)
                (map extract_text (filter archivable messages)) /\
    Forall (fun r => message_text r <> "" /\ to_jid r = or_else self_id "") added /\
    (all_stored insert_outcome ->
     map message_text added = map extract_text (filter archivable messages)).
Proof.
  induction messages as [|m rest IH]; intros st; simpl.
  - exists []. rewrite app_nil_r. repeat split; auto. constructor.
  - destruct (IH (one st m)) as (added & Hin & Hc & Hq & Hall & Hfull).
    destruct (archive_one_cases st m)
      as [(Ha & Hm & Hcalls) | (Ha & Hcalls & [(Ho & _ & from & Hm) | (Ho & Hm)])];
      rewrite Ha.
    + exists added. rewrite Hin, Hc, Hm, Hcalls. auto.
    + eexists (_ :: added). rewrite Hin, Hc, Hm, Hcalls, <- app_assoc. simpl.
      split; [reflexivity|]. split; [lia|]. split; [now apply subseq_take|].
      split; [|intros Hs; now rewrite Hfull].
      constructor; [|exact Hall]. simpl. split; [|reflexivity].
      unfold archivable in Ha. destruct (key m); [|discriminate Ha].
      apply negb_true_iff, String.eqb_neq in Ha. exact Ha.
    + exists added. rewrite Hin, Hc, Hm, Hcalls. simpl.
      split; [reflexivity|]. split; [lia|]. split; [now apply subseq_skip|].
      split; [exact Hall|]. intros Hs. destruct (Ho (Hs (calls st))).
Qed.

(** X12: the handler archives live batches only and text only. A batch
    whose type is not notify changes nothing. For a notify batch the
    records are appended after the existing ones, in the order of the
    messages they come from; each has a text that is not empty and the
    bot's own id (or the empty string) as recipient; messages without a
    key or without text add nothing. *)
Theorem inbox_archives_live_text (type : string) (messages : list WAMessage)
    (st : Archive) :
  (type <> "notify" -> upsert type messages st = st) /\
  exists added,
    messages_inbox (upsert type messages st) = messages_inbox st ++ added /\
    subsequence (map message_text added)
                (map extract_text (filter archivable messages)) /\
    Forall (fun r => message_text r <> "" /\ to_jid r = or_else self_id "") added.
Proof.
  unfold on_messages_upsert. split.
  - intros H. apply String.eqb_neq in H. now rewrite H.
  - destruct (type =? "notify")%string; simpl.
    + destruct (archive_fold messages st) as (added & Hin & _ & Hq & Hall & _).
      exists added. auto.
    + exists []. rewrite app_nil_r. repeat split; auto. apply subsequence_nil_l.
Qed.

(** X13: a failure on one message does not stop the batch. In a notify
    batch every message that has a key and a text gets exactly one insert
    call, whatever happened to the messages before it; and when every
    insert is stored, the texts of the new records are exactly the texts of
    those messages, in order. *)
Theorem inbox_failure_is_per_message (messages : list WAMessage) (st : Archive) :
  calls (upsert "notify" messages st)
  = calls st + List.length (filter archivable messages) /\
  (all_stored insert_outcome ->
   exists added,
     messages_inbox (upsert "notify" messages st) = messages_inbox st ++ added /\
     map message_text added = map extract_text (filter archivable messages)).
Proof.
  unfold on_messages_upsert. simpl.
  destruct (archive_fold messages st) as (added & Hin & Hc & _ & _ & Hfull).
  split; [exact Hc|]. intros Hs. exists added. auto.
Qed.

(** X14: an insert the backend answers with an error is dropped without a
    trace. When every insert of a notify batch is refused, nothing is
    stored, and the only warnings logged are the ones for messages without
    a key: no warning tells of the refused inserts. *)
Theorem inbox_refused_inserts_are_silent (messages : list WAMessage) (st : Archive) :
  all_refused insert_outcome ->
  messages_inbox (upsert "notify" messages st) = messages_inbox st /\
  List.length (warnings (upsert "notify" messages st))
  = List.length (warnings st) + List.length (filter keyless messages).
Proof.
  intros Href. unfold on_messages_upsert. simpl. revert st.
  induction messages as [|m rest IH]; intros st; simpl; [auto|].
  destruct (IH (one st m)) as [-> ->].
  unfold archive_one, archive_try, keyless.
  destruct (key m) as [k|]; simpl.
  - destruct (extract_text m =? "")%string; simpl; [auto|].
    destruct (Href (calls st)) as [err ->]. simpl. auto.
  - rewrite length_app. simpl. split; [reflexivity | lia].
Qed.

End InboxFacts.

Lemma inbox_refused_inserts_are_silent_witness :
  Inbox.messages_inbox
    (Inbox.on_messages_upsert None (fun _ => Inbox.Refused "row-level security")
       (fun _ => "2024-05-01T10:00:00.000Z") "notify"
       [plain_message "a@s.whatsapp.net" "hello"; keyless_message] empty_archive)
  = [] /\
  List.length
    (Inbox.warnings
       (Inbox.on_messages_upsert None (fun _ => Inbox.Refused "row-level security")
          (fun _ => "2024-05-01T10:00:00.000Z") "notify"
          [plain_message "a@s.whatsapp.net" "hello"; keyless_message] empty_archive))
  = 1.
Proof.
  apply (inbox_refused_inserts_are_silent None
           (fun _ => Inbox.Refused "row-level security")
           (fun _ => "2024-05-01T10:00:00.000Z")
           [plain_message "a@s.whatsapp.net" "hello"; keyless_message] empty_archive).
  intros n. eexists. reflexivity.
Defined.


Lemma inbox_archives_live_text_witness :
  Inbox.on_messages_upsert (Some "bot@s.whatsapp.net") (fun _ => Inbox.Stored)
    (fun _ => "2024-05-01T10:00:00.000Z")
    "append" [plain_message "a@s.whatsapp.net" "hello"] empty_archive
  = empty_archive.
Proof.
  apply (inbox_archives_live_text (Some "bot@s.whatsapp.net")
           (fun _ => Inbox.Stored) (fun _ => "2024-05-01T10:00:00.000Z")
           "append" [plain_message "a@s.whatsapp.net" "hello"] empty_archive).
  discriminate.
Defined.

Lemma inbox_failure_is_per_message_witness :
  exists added,
    Inbox.messages_inbox
      (Inbox.on_messages_upsert None (fun _ => Inbox.Stored)
         (fun _ => "2024-05-01T10:00:00.000Z") "notify"
         [plain_message "a@s.whatsapp.net" "hello";
          photo_message "b@s.whatsapp.net" "look"] empty_archive)
    = Inbox.messages_inbox empty_archive ++ added /\
    map Inbox.message_text added = ["hello"; "look"].
Proof.
  apply (inbox_failure_is_per_message None (fun _ => Inbox.Stored)
           (fun _ => "2024-05-01T10:00:00.000Z")
           [plain_message "a@s.whatsapp.net" "hello";
            photo_message "b@s.whatsapp.net" "look"] empty_archive).
  intros n. reflexivity.
Defined.

(** ** More on the connection *)

Lemma update_nth_length {A} (k : nat) (f : A -> A) (l : list A) :
  List.length (Connection.update_nth k f l) = List.length l.
Proof.
  revert k. induction l as [|x l IH]; intros [|k]; simpl; auto.
Qed.

Lemma update_nth_filter_same {A} (p : A -> bool) (k : nat) (f : A -> A) (l : list A) :
  (forall x, p (f x) = p x) ->
  List.length (filter p (Connection.update_nth k f l)) = List.length (filter p l).
Proof.
  intros Hf. revert k. induction l as [|x l IH]; intros [|k]; simpl; auto.
  - rewrite Hf. destruct (p x); reflexivity.
  - destruct (p x); simpl; auto.
Qed.

Lemma update_nth_filter_gain {A} (p : A -> bool) (k : nat) (f : A -> A)
    (l : list A) (x : A) :
  nth_error l k = Some x -> p x = false -> p (f x) = true ->
  List.length (filter p (Connection.update_nth k f l))
  = S (List.length (filter p l)).
Proof.
  revert k. induction l as [|y l IH]; intros [|k] Hn Hx Hfx; simpl in *;
    try discriminate Hn.
  - injection Hn as ->. now rewrite Hx, Hfx.
  - destruct (p y); simpl; auto.
Qed.

Lemma timers_of_S (n : nat) :
  timers_of (S n) = timers_of n ++ [(Bucket, n); (Outbox, n)].
Proof.
  unfold timers_of. rewrite seq_S, flat_map_app. simpl. reflexivity.
Qed.

Lemma timers_of_set (e : Engine) (k n : nat) :
  k < n -> existsb (fun t => match fst t, e with
                             | Bucket, Bucket | Outbox, Outbox => (snd t =? k)%nat
                             | _, _ => false
                             end) (timers_of n) = true.
Proof.
  intros H. induction n as [|n IH]; [lia|].
  rewrite timers_of_S, existsb_app.
  destruct (Nat.eq_dec k n) as [-> | Hne].
  - apply orb_true_iff. right. simpl. rewrite Nat.eqb_refl.
    destruct e; simpl; auto.
  - rewrite IH by lia. reflexivity.
Qed.

Section ConnectionMore.

Import Connection.

Variable loggedOut : Z.
Variable toDataURL : string -> string.
Variable session_setup : nat -> bool.

Local Notation start := (startWhatsApp session_setup).
Local Notation handler := (on_connection_update loggedOut toDataURL session_setup).
Local Notation step := (deliver loggedOut toDataURL session_setup).
Local Notation reach := (run loggedOut toDataURL session_setup).

Lemma start_steady (p : Process) : steady p -> steady (start p).
Proof.
  intros [Hi Hb]. unfold steady, browsers_opened, sockets_with_browser in *.
  unfold startWhatsApp. destruct (session_setup (starts p)); simpl.
  - rewrite length_app, Nat.add_1_r, timers_of_S, Hi. simpl.
    split; [reflexivity|].
    repeat rewrite filter_app. simpl. repeat rewrite app_nil_r. exact Hb.
  - repeat rewrite filter_app. simpl. repeat rewrite app_nil_r. auto.
Qed.

Lemma report_steady (k : nat) (u : ConnectionUpdate) (p : Process) :
  steady p -> steady (report k u p).
Proof.
  intros [Hi Hb]. unfold steady, browsers_opened, sockets_with_browser, report in *.
  destruct (connection u); simpl; [|auto].
  rewrite update_nth_length, filter_app, app_nil_r.
  rewrite update_nth_filter_same by reflexivity. auto.
Qed.

Lemma on_qr_steady (k : nat) (u : ConnectionUpdate) (p : Process) :
  steady p -> steady (on_qr toDataURL k u p).
Proof.
  intros [Hi Hb]. unfold steady, browsers_opened, sockets_with_browser, on_qr in *.
  destruct (qr u) as [code|]; [|auto].
  destruct (code =? "")%string; [auto|]. simpl.
  destruct (nth_error (sockets p) k) as [s|] eqn:Hk; [|auto].
  destruct (openedBrowser s) eqn:Ho; simpl; [auto|].
  rewrite update_nth_length, filter_app, length_app. simpl.
  erewrite update_nth_filter_gain by (try eassumption; reflexivity).
  split; [exact Hi | lia].
Qed.

Lemma on_open_steady (u : ConnectionUpdate) (p : Process) :
  steady p -> steady (on_open u p).
Proof.
  intros [Hi Hb]. unfold steady, browsers_opened, sockets_with_browser, on_open in *.
  destruct (connection u) as [[| |]|]; simpl; auto.
  rewrite filter_app, app_nil_r. auto.
Qed.

Lemma before_close_steady (k : nat) (u : ConnectionUpdate) (p : Process) :
  steady p -> steady (before_close toDataURL k u p).
Proof.
  intros H. unfold before_close.
  now apply on_open_steady, on_qr_steady, report_steady.
Qed.

Lemma deliver_steady (i : Input) (p : Process) : steady p -> steady (step i p).
Proof.
  intros H. destruct i as [k u | e k]; simpl.
  - destruct (k <? List.length (sockets p))%nat; [|exact H].
    apply (before_close_steady k u) in H.
    unfold on_connection_update, on_close. fold (before_close toDataURL k u p).
    assert (Hlog : forall code b,
              steady (log [ConsoleClosed code b] (before_close toDataURL k u p))).
    { intros code b. destruct H as [Hi Hb].
      unfold steady, browsers_opened, sockets_with_browser in *. simpl.
      rewrite filter_app, app_nil_r. auto. }
    destruct (connection u) as [[| |]|]; auto.
    destruct (negb (close_code (lastDisconnect u) =? loggedOut)%Z); auto.
    apply start_steady. apply Hlog.
  - destruct (timer_set e k p); [|exact H].
    destruct H as [Hi Hb].
    unfold steady, browsers_opened, sockets_with_browser in *. simpl.
    rewrite filter_app, app_nil_r. auto.
Qed.

Lemma reach_steady (inputs : list Input) : steady (reach inputs).
Proof.
  unfold run.
  assert (H0 : steady (start initial)).
  { apply start_steady. split; reflexivity. }
  revert H0. generalize (start initial).
  induction inputs as [|i inputs IH]; intros p Hp; simpl; [exact Hp|].
  apply IH. now apply deliver_steady.
Qed.

(** X15: no timer is ever cleared. Whatever the event loop has delivered,
    every socket made so far still has its bucket timer and its outbox
    timer, and when one of them fires the cycle is called, also for a
    socket that was closed or logged out since. *)
Theorem timers_are_never_cleared (inputs : list Input) (e : Engine) (k : nat) :
  intervals (reach inputs) = timers_of (List.length (sockets (reach inputs))) /\
  (k < List.length (sockets (reach inputs)) ->
   actions (step (TimerFires e k) (reach inputs))
   = actions (reach inputs) ++ [CallCycle e k]).
Proof.
  destruct (reach_steady inputs) as [Hi _]. split; [exact Hi|].
  intros Hk. simpl. unfold timer_set. rewrite Hi.
  now rewrite (timers_of_set e k _ Hk).
Qed.

(** X16: the browser is opened at most once per socket: in every state
    the event loop can reach, the number of times it was opened is the
    number of sockets whose [openedBrowser] flag is set. *)
Theorem browser_opened_once_per_socket (inputs : list Input) :
  browsers_opened (reach inputs) = sockets_with_browser (reach inputs) /\
  browsers_opened (reach inputs) <= List.length (sockets (reach inputs)).
Proof.
  destruct (reach_steady inputs) as [_ Hb]. split; [exact Hb|].
  rewrite Hb. unfold sockets_with_browser. apply filter_length_le.
Qed.

(** X17: the QR code on the page follows the connection: after an update
    that reports the session open the stored QR image is empty, also when
    the same update carried a QR code; after any other update that carries
    a non-empty QR code the stored image is the rendering of that code. *)
Theorem qr_image_follows_connection (k : nat) (u : ConnectionUpdate) (p : Process) :
  (connection u = Some opened -> latestQRDataURL (handler k u p) = "") /\
  (connection u <> Some opened ->
   forall code, qr u = Some code -> code <> "" ->
   latestQRDataURL (handler k u p) = toDataURL code).
Proof.
  assert (Hstart : forall q, latestQRDataURL (start q) = latestQRDataURL q).
  { intros q. unfold startWhatsApp. destruct (session_setup (starts q)); reflexivity. }
  unfold on_connection_update, on_close, on_open. split.
  - intros Hu. rewrite Hu. reflexivity.
  - intros Hu code Hq Hne. apply String.eqb_neq in Hne.
    assert (Hqr : latestQRDataURL (on_qr toDataURL k u (report k u p))
                  = toDataURL code).
    { unfold on_qr. rewrite Hq, Hne. simpl.
      destruct (nth_error _ k) as [s|]; [destruct (openedBrowser s)|]; reflexivity. }
    destruct (connection u) as [[| |]|]; try exact Hqr.
    + congruence.
    + destruct (negb (close_code (lastDisconnect u) =? loggedOut)%Z).
      * rewrite Hstart. exact Hqr.
      * exact Hqr.
Qed.

Lemma before_close_counts (k : nat) (u : ConnectionUpdate) (p : Process) :
  List.length (sockets (before_close toDataURL k u p)) = List.length (sockets p) /\
  starts (before_close toDataURL k u p) = starts p.
Proof.
  unfold before_close, on_open, on_qr, report.
  destruct (connection u) as [[| |]|]; destruct (qr u) as [code|]; simpl;
    try destruct (code =? "")%string; simpl;
    repeat match goal with
           | |- context [match ?x with _ => _ end] => destruct x; simpl
           end;
    repeat rewrite update_nth_length; auto.
Qed.

Lemma start_counts (p : Process) :
  session_setup (starts p) = true ->
  List.length (sockets p) = starts p ->
  List.length (sockets (start p)) = starts (start p).
Proof.
  intros Hok H. unfold startWhatsApp. rewrite Hok. simpl.
  rewrite length_app. simpl. lia.
Qed.

(** X18: every reconnect leaks a pair of timers. When the session set-up
    always succeeds, in every state the event loop can reach there is one
    socket per call of [startWhatsApp] and two timers per socket, so each
    poll period runs as many bucket cycles and outbox cycles as
    [startWhatsApp] was called. *)
Theorem timers_grow_with_reconnects (inputs : list Input) :
  (forall n, session_setup n = true) ->
  List.length (sockets (reach inputs)) = starts (reach inputs) /\
  List.length (intervals (reach inputs)) = 2 * starts (reach inputs).
Proof.
  intros Hok.
  assert (Hcount : List.length (sockets (reach inputs)) = starts (reach inputs)).
  { unfold run.
    assert (H0 : List.length (sockets (start initial)) = starts (start initial))
      by (apply start_counts; [apply Hok | reflexivity]).
    revert H0. generalize (start initial).
    induction inputs as [|i inputs IH]; intros p Hp; simpl; [exact Hp|].
    apply IH. destruct i as [k u | e k]; simpl.
    - destruct (k <? List.length (sockets p))%nat; [|exact Hp].
      destruct (before_close_counts k u p) as [Hs Hn].
      unfold on_connection_update, on_close. fold (before_close toDataURL k u p).
      destruct (connection u) as [[| |]|]; try lia.
      destruct (negb (close_code (lastDisconnect u) =? loggedOut)%Z); simpl; [|lia].
      apply start_counts; [apply Hok | simpl; lia].
    - destruct (timer_set e k p); exact Hp. }
  split; [exact Hcount|].
  destruct (reach_steady inputs) as [Hi _]. rewrite Hi, <- Hcount.
  generalize (List.length (sockets (reach inputs))). intros n.
  induction n as [|n IH]; [reflexivity|].
  rewrite timers_of_S, length_app, IH. simpl. lia.
Qed.

End ConnectionMore.

Lemma timers_are_never_cleared_witness :
  Connection.actions
    (Connection.deliver 401 (fun qr => qr) (fun _ => true)
       (Connection.TimerFires Bucket 0)
       (Connection.run 401 (fun qr => qr) (fun _ => true)
          [Connection.ConnectionUpdateOf 0 logged_out_401]))
  = Connection.actions
      (Connection.run 401 (fun qr => qr) (fun _ => true)
         [Connection.ConnectionUpdateOf 0 logged_out_401])
    ++ [Connection.CallCycle Bucket 0].
Proof.
  apply (timers_are_never_cleared 401 (fun qr => qr) (fun _ => true)
           [Connection.ConnectionUpdateOf 0 logged_out_401] Bucket 0).
  vm_compute. lia.
Defined.

Lemma qr_image_follows_connection_witness :
  Connection.latestQRDataURL
    (Connection.on_connection_update 401 (fun qr => ("data:image/png;base64," ++ qr)%string)
       (fun _ => true) 0 (qr_update "2@abc")
       (Connection.startWhatsApp (fun _ => true) Connection.initial))
  = "data:image/png;base64,2@abc" /\
  Connection.latestQRDataURL
    (Connection.on_connection_update 401 (fun qr => ("data:image/png;base64," ++ qr)%string)
       (fun _ => true) 0 session_open
       (Connection.on_connection_update 401
          (fun qr => ("data:image/png;base64," ++ qr)%string)
          (fun _ => true) 0 (qr_update "2@abc")
          (Connection.startWhatsApp (fun _ => true) Connection.initial)))
  = "".
Proof.
  split.
  - apply (qr_image_follows_connection 401
             (fun qr => ("data:image/png;base64," ++ qr)%string) (fun _ => true)
             0 (qr_update "2@abc")
             (Connection.startWhatsApp (fun _ => true) Connection.initial)
           ); [discriminate | reflexivity | discriminate].
  - apply (qr_image_follows_connection 401
             (fun qr => ("data:image/png;base64," ++ qr)%string) (fun _ => true)
             0 session_open). reflexivity.
Defined.

Lemma timers_grow_with_reconnects_witness :
  List.length
    (Connection.intervals
       (Connection.run 401 (fun qr => qr) (fun _ => true)
          [Connection.ConnectionUpdateOf 0 connection_lost_428;
           Connection.ConnectionUpdateOf 1 connection_lost_428]))
  = 2 * Connection.starts
          (Connection.run 401 (fun qr => qr) (fun _ => true)
             [Connection.ConnectionUpdateOf 0 connection_lost_428;
              Connection.ConnectionUpdateOf 1 connection_lost_428]).
Proof.
  apply (timers_grow_with_reconnects 401 (fun qr => qr) (fun _ => true)
           [Connection.ConnectionUpdateOf 0 connection_lost_428;
            Connection.ConnectionUpdateOf 1 connection_lost_428]).
  intros n. reflexivity.
Defined.


(** ** Start-up *)

Lemma truthy_or_else (v : option string) (d : string) :
  truthy v = true -> v = Some (or_else v d) /\ or_else v d <> "".
Proof.
  unfold truthy, or_else. destruct v as [s|]; [|discriminate].
  destruct (s =? "")%string eqn:E; [discriminate|].
  intros _. split; [reflexivity|]. now apply String.eqb_neq.
Qed.

Lemma or_else_nonempty (v : option string) (d : string) :
  d <> "" -> or_else v d <> "".
Proof.
  intros Hd. unfold or_else. destruct v as [s|]; [|exact Hd].
  destruct (s =? "")%string eqn:E; [exact Hd|]. now apply String.eqb_neq.
Qed.

Lemma startup_settings_nonempty (env : Config.ProcessEnv) (c : Config.Settings) :
  Config.startup env = Config.Running c -> Config.GROUP_JID c <> "".
Proof.
  unfold Config.startup.
  destruct (negb (truthy (env "SUPABASE_URL"))
            || negb (truthy (env "SUPABASE_SERVICE_KEY"))); [discriminate|].
  destruct (truthy (env "GROUP_JID")) eqn:Hg; simpl; [|discriminate].
  intros H. injection H as <-. simpl. now apply truthy_or_else.
Qed.

(** X19: the process goes past start-up exactly when SUPABASE_URL,
    SUPABASE_SERVICE_KEY and GROUP_JID are all set to a non-empty text;
    otherwise it exits with code 1. The settings it then runs with are the
    values of the environment, none of the three is empty, and the bucket,
    the poll period, the credential directory and the port fall back to
    their defaults when unset or empty. *)
Theorem startup_requires_three_settings (env : Config.ProcessEnv) :
  (truthy (env "SUPABASE_URL") = true /\
   truthy (env "SUPABASE_SERVICE_KEY") = true /\
   truthy (env "GROUP_JID") = true <->
   exists c, Config.startup env = Config.Running c) /\
  (forall code missing, Config.startup env = Config.Exit code missing -> code = 1%Z) /\
  (forall c, Config.startup env = Config.Running c ->
     env "SUPABASE_URL" = Some (Config.SUPABASE_URL c) /\
     env "SUPABASE_SERVICE_KEY" = Some (Config.SUPABASE_SERVICE_KEY c) /\
     env "GROUP_JID" = Some (Config.GROUP_JID c) /\
     Config.SUPABASE_URL c <> "" /\
     Config.SUPABASE_SERVICE_KEY c <> "" /\
     Config.GROUP_JID c <> "" /\
     Config.BUCKET_NAME c = or_else (env "BUCKET_NAME") "pdf-notes" /\
     Config.POLL_MS c = or_else (env "POLL_MS") "10000" /\
     Config.AUTH_DIR c = or_else (env "AUTH_DIR") "./auth_info" /\
     Config.QR_PORT c = or_else (env "QR_PORT") "3000").
Proof.
  unfold Config.startup.
  destruct (truthy (env "SUPABASE_URL")) eqn:Hu;
    destruct (truthy (env "SUPABASE_SERVICE_KEY")) eqn:Hk;
    destruct (truthy (env "GROUP_JID")) eqn:Hg; simpl.
  all: split; [split; [intros (H1 & H2 & H3); try discriminate; eauto
                      | intros [c Hc]; try discriminate Hc; auto]|].
  all: split; [intros code missing H; inversion H; reflexivity|].
  all: intros c Hc; try discriminate Hc.
  injection Hc as <-. simpl.
  destruct (truthy_or_else _ "" Hu) as [Hu1 Hu2].
  destruct (truthy_or_else _ "" Hk) as [Hk1 Hk2].
  destruct (truthy_or_else _ "" Hg) as [Hg1 Hg2].
  repeat split; auto.
Qed.

(** X20: a process that got past start-up never sends to an empty target:
    every send of a bucket cycle goes to the group JID of the settings,
    every send of an outbox cycle to the row's own target or, failing
    that, to the group JID, and neither is the empty string. *)
Theorem sends_have_a_target (penv : Config.ProcessEnv) (c : Config.Settings)
    (JSON_stringify : JSON -> string) (env : Env) (e : Engine) (w : World) :
  Config.startup penv = Config.Running c ->
  forall cause jid text b,
    In (EvSend cause jid text b)
       (events_of (cycle JSON_stringify (Config.GROUP_JID c) env e) w) ->
    jid <> "".
Proof.
  intros Hrun cause jid text b Hin.
  assert (Hg : Config.GROUP_JID c <> "").
  { exact (startup_settings_nonempty penv c Hrun). }
  destruct e; simpl in Hin.
  - destruct (bucket_cycle_effect JSON_stringify (Config.GROUP_JID c) env w)
      as (_ & evs & Ht & _ & _ & _ & Hs & _).
    rewrite (events_of_trace _ _ _ Ht) in Hin.
    destruct (Hs _ _ _ _ Hin) as (n & _ & -> & _). exact Hg.
  - destruct (outbox_cycle_effect (Config.GROUP_JID c) env w)
      as (_ & evs & (Ht & _ & _ & Hs & _) & _).
    rewrite (events_of_trace _ _ _ Ht) in Hin.
    destruct (Hs _ _ _ _ Hin) as (row & _ & _ & -> & _).
    now apply or_else_nonempty.
Qed.

Lemma startup_requires_three_settings_witness :
  exists c,
    Config.startup
      (env_of [("SUPABASE_URL", "https://x.supabase.co");
               ("SUPABASE_SERVICE_KEY", "service-key");
               ("GROUP_JID", group); ("BUCKET_NAME", "")])
    = Config.Running c.
Proof.
  apply (startup_requires_three_settings
           (env_of [("SUPABASE_URL", "https://x.supabase.co");
                    ("SUPABASE_SERVICE_KEY", "service-key");
                    ("GROUP_JID", group); ("BUCKET_NAME", "")])).
  repeat split; reflexivity.
Defined.

Lemma sends_have_a_target_witness :
  In (EvSend (ForRow 2) group "yo" true)
     (events_of (cycle stringify_names group (env_with [] send_ok) Outbox)
                (world_with [] [row2])) /\
  group <> "".
Proof.
  assert (Hin : In (EvSend (ForRow 2) group "yo" true)
                   (events_of (cycle stringify_names group (env_with [] send_ok) Outbox)
                              (world_with [] [row2]))).
  { vm_compute. auto. }
  split; [exact Hin|].
  exact (sends_have_a_target
           (env_of [("SUPABASE_URL", "https://x.supabase.co");
                    ("SUPABASE_SERVICE_KEY", "service-key");
                    ("GROUP_JID", group)])
           {| Config.SUPABASE_URL := "https://x.supabase.co";
              Config.SUPABASE_SERVICE_KEY := "service-key";
              Config.BUCKET_NAME := "pdf-notes";
              Config.GROUP_JID := group;
              Config.POLL_MS := "10000";
              Config.AUTH_DIR := "./auth_info";
              Config.QR_PORT := "3000" |}
           stringify_names (env_with [] send_ok) Outbox (world_with [] [row2])
           eq_refl (ForRow 2) group "yo" true Hin).
Defined.

(** ** The fixtures at work *)

Lemma save_then_load_round_trip_witness :
  loadSentCache (parse_only [JStr "a.pdf"])
    (sent_cache_json
       (exec (saveSentCache stringify_names (env_with [] send_ok) [JStr "a.pdf"])
             (world_with [] [])))
  = [JStr "a.pdf"].
Proof.
  apply (save_then_load_round_trip stringify_names (env_with [] send_ok)
           (parse_only [JStr "a.pdf"]) [JStr "a.pdf"] (world_with [] [])).
  - exists ["a.pdf"]. split; [repeat constructor; intros [] | reflexivity].
  - reflexivity.
  - vm_compute. reflexivity.
Defined.

Lemma bucket_cycle_delivers_once_witness :
  NoDup (delivered_names
           (events_of (pollBucketAndSend stringify_names group
                         (env_with (three_files ++ three_files) send_ok))
                      (world_with [] []))).
Proof.
  apply (bucket_cycle_delivers_once stringify_names group
           (env_with (three_files ++ three_files) send_ok) (world_with [] [])).
  exists []. split; [constructor | reflexivity].
Defined.

Lemma sent_cache_survives_restart_witness :
  loadSentCache (parse_only [JStr "a.pdf"; JStr "b.pdf"])
    (sent_cache_json
       (run_cycles stringify_names group (env_with three_files send_ok)
          [Bucket; Outbox; Bucket] (synced_world [])))
  = sentFiles
      (run_cycles stringify_names group (env_with three_files send_ok)
         [Bucket; Outbox; Bucket] (synced_world [])).
Proof.
  apply (sent_cache_survives_restart stringify_names group
           (env_with three_files send_ok)
           (parse_only [JStr "a.pdf"; JStr "b.pdf"])
           [Bucket; Outbox; Bucket] (synced_world [])).
  - exists []. split; [constructor | reflexivity].
  - reflexivity.
  - intros n. reflexivity.
  - vm_compute. reflexivity.
Defined.

Lemma outbox_cycle_marks_batch_witness :
  settled 2 (messages_outbox
               (exec (pollOutboxAndSend group (env_with [] send_ok))
                     (world_with [] [row2; row3]))).
Proof.
  assert (Hnd : NoDup (map row_id (messages_outbox (world_with [] [row2; row3])))).
  { repeat constructor; simpl; intuition discriminate. }
  assert (Hok : no_failed_send
                  (events_of (pollOutboxAndSend group (env_with [] send_ok))
                             (world_with [] [row2; row3]))).
  { intros c jid text Hin. vm_compute in Hin.
    repeat destruct Hin as [Hin | Hin]; try discriminate Hin. destruct Hin. }
  assert (Hkept : forall i now receipt,
            ~ In (EvUpdateLost i now receipt)
                 (events_of (pollOutboxAndSend group (env_with [] send_ok))
                            (world_with [] [row2; row3]))).
  { intros i now rc Hin. vm_compute in Hin.
    repeat destruct Hin as [Hin | Hin]; try discriminate Hin. destruct Hin. }
  assert (Hsel : In row2 (select_unsent (messages_outbox (world_with [] [row2; row3])))).
  { vm_compute. auto. }
  assert (Hmsg : or_else (row_message row2) "" <> "") by discriminate.
  exact (proj2 (outbox_cycle_marks_batch group (env_with [] send_ok)
                  (world_with [] [row2; row3]) row2 Hnd eq_refl Hok Hkept
                  Hsel Hmsg)).
Defined.


Lemma bucket_cycle_records_every_pdf_witness :
  Set_has (sentFiles (exec (pollBucketAndSend stringify_names group
                              (env_with three_files send_ok))
                           (world_with [] [])))
          (JStr "b.pdf") = true.
Proof.
  apply (bucket_cycle_records_every_pdf stringify_names group
           (env_with three_files send_ok) (world_with [] [])
           {| name := Some "b.pdf" |} "b.pdf").
  - vm_compute. auto.
  - reflexivity.
  - reflexivity.
  - intros k. split; [reflexivity|]. eexists. split; [reflexivity | discriminate].
  - intros c jid text Hin. vm_compute in Hin.
    repeat destruct Hin as [Hin | Hin]; try discriminate Hin. destruct Hin.
Defined.
